(** * fb-marketplace-qb: the URL builder of [script.js]

    A shallow embedding of [updateUrl] (script.js, lines 65-120) and of the
    platform objects it touches: ECMAScript strings, [FormData],
    [form.elements], [URLSearchParams].  The platform operations follow the
    ECMAScript, HTML and URL standards; the function itself follows the
    source line by line. *)

From Stdlib Require Import List NArith String Ascii Bool Arith Lia.
From Stdlib Require Import Permutation Sorted.
Import ListNotations.

Set Implicit Arguments.

(** ** ECMAScript strings *)

Module JsString.

(** A string value is a finite sequence of 16-bit code units. *)
Definition code_unit := N.
Definition jsstring := list code_unit.

(** String literals of the source, one code unit per character. *)
Definition js (s : string) : jsstring :=
  map N_of_ascii (list_ascii_of_string s).

(** [a === b] on two strings. *)
Fixpoint str_eqb (a b : jsstring) : bool :=
  match a, b with
  | [], [] => true
  | x :: a', y :: b' => N.eqb x y && str_eqb a' b'
  | _, _ => false
  end.

(** ToBoolean of a string: only the empty string is falsy.  This is the
    test behind [!value], [if (v)], [filter(Boolean)] and
    [paramString ? ... : ...]. *)
Definition truthy (s : jsstring) : bool :=
  match s with
  | [] => false
  | _ :: _ => true
  end.

(** WhiteSpace and LineTerminator code points, the ones
    [String.prototype.trim] strips: TAB, LF, VT, FF, CR, SP, NBSP, the
    other members of category Zs, LS, PS and the BOM. *)
Definition isWhiteSpace (c : code_unit) : bool :=
  ((9 <=? c) && (c <=? 13)
   || (c =? 32) || (c =? 160) || (c =? 5760)
   || (8192 <=? c) && (c <=? 8202)
   || (c =? 8232) || (c =? 8233) || (c =? 8239) || (c =? 8287)
   || (c =? 12288) || (c =? 65279))%N.

Fixpoint trimStart (s : jsstring) : jsstring :=
  match s with
  | [] => []
  | c :: s' => if isWhiteSpace c then trimStart s' else s
  end.

Definition trimEnd (s : jsstring) : jsstring :=
  rev (trimStart (rev s)).

(** [s.trim()] *)
Definition trim (s : jsstring) : jsstring := trimEnd (trimStart s).

(** [s.split(sep)] for a separator of one code unit and no limit: the
    pieces between the occurrences of [sep], empty ones included; the
    empty string gives one empty piece. *)
Fixpoint split (sep : code_unit) (s : jsstring) : list jsstring :=
  match s with
  | [] => [[]]
  | c :: s' =>
      if N.eqb c sep then [] :: split sep s'
      else match split sep s' with
           | p :: ps => (c :: p) :: ps
           | [] => [[c]]
           end
  end.

(** [s.endsWith(search)] with the end position left out: the last
    [length search] code units of [s] are [search]. *)
Definition endsWith (s search : jsstring) : bool :=
  let len := List.length s in
  let searchLength := List.length search in
  if len <? searchLength then false
  else str_eqb (skipn (len - searchLength) s) search.

(** [parts.join(sep)], used to state what [split] and the serializer do. *)
Fixpoint join (sep : jsstring) (parts : list jsstring) : jsstring :=
  match parts with
  | [] => []
  | [p] => p
  | p :: ps => p ++ sep ++ join sep ps
  end.

End JsString.
Import JsString.

(** ** URLSearchParams (URL standard) *)

Module URLSearchParams.

(** The object's list of name-value tuples.  Names and values reach it
    from [FormData], whose entries are scalar value strings, so the
    conversion to a scalar value string at [append] and [set] changes
    nothing and is left to the serializer's encoder. *)
Definition t := list (jsstring * jsstring).

(** [new URLSearchParams()] *)
Definition empty : t := [].

(** [params.append(name, value)] *)
Definition append (l : t) (name value : jsstring) : t :=
  l ++ [(name, value)].

Definition remove_name (name : jsstring) (l : t) : t :=
  filter (fun tuple => negb (str_eqb (fst tuple) name)) l.

(** [params.set(name, value)]: the first tuple named [name] takes the
    value and the others of that name go; with no such tuple, append. *)
Fixpoint set (l : t) (name value : jsstring) : t :=
  match l with
  | [] => [(name, value)]
  | (n, v) :: l' =>
      if str_eqb n name then (n, value) :: remove_name name l'
      else (n, v) :: set l' name value
  end.

(** *** UTF-8 encode *)

Definition isLeadSurrogate (c : code_unit) : bool :=
  ((0xD800 <=? c) && (c <=? 0xDBFF))%N.

Definition isTrailSurrogate (c : code_unit) : bool :=
  ((0xDC00 <=? c) && (c <=? 0xDFFF))%N.

(** The scalar values of a string: a surrogate pair is one code point, a
    lone surrogate becomes U+FFFD. *)
Fixpoint scalarValues (s : jsstring) : list N :=
  match s with
  | [] => []
  | c :: rest =>
      if isLeadSurrogate c then
        match rest with
        | d :: rest' =>
            if isTrailSurrogate d
            then (0x10000 + (c - 0xD800) * 0x400 + (d - 0xDC00))%N
                   :: scalarValues rest'
            else 0xFFFD%N :: scalarValues rest
        | [] => [0xFFFD%N]
        end
      else if isTrailSurrogate c then 0xFFFD%N :: scalarValues rest
      else c :: scalarValues rest
  end.

Definition continuationByte (cp : N) (shift : N) : N :=
  N.lor 0x80 (N.land (N.shiftr cp shift) 0x3F).

Definition utf8EncodeCodePoint (cp : N) : list N :=
  if (cp <=? 0x7F)%N then [cp]
  else if (cp <=? 0x7FF)%N then
    [N.lor 0xC0 (N.shiftr cp 6); continuationByte cp 0]
  else if (cp <=? 0xFFFF)%N then
    [N.lor 0xE0 (N.shiftr cp 12); continuationByte cp 6;
     continuationByte cp 0]
  else
    [N.lor 0xF0 (N.shiftr cp 18); continuationByte cp 12;
     continuationByte cp 6; continuationByte cp 0].

Definition utf8Encode (s : jsstring) : list N :=
  flat_map utf8EncodeCodePoint (scalarValues s).

(** *** Percent-encode sets, as the URL standard builds them *)

Definition among (b : N) (l : list N) : bool := existsb (N.eqb b) l.

Definition between (lo hi b : N) : bool := ((lo <=? b) && (b <=? hi))%N.

Definition c0ControlSet (b : N) : bool :=
  ((b <=? 0x1F) || (0x7E <? b))%N.

Definition querySet (b : N) : bool :=
  c0ControlSet b || among b [0x20; 0x22; 0x23; 0x3C; 0x3E]%N.

Definition pathSet (b : N) : bool :=
  querySet b || among b [0x3F; 0x5E; 0x60; 0x7B; 0x7D]%N.

Definition userinfoSet (b : N) : bool :=
  pathSet b || among b [0x2F; 0x3A; 0x3B; 0x3D; 0x40]%N
  || between 0x5B 0x5D b || among b [0x7C]%N.

Definition componentSet (b : N) : bool :=
  userinfoSet b || between 0x24 0x26 b || among b [0x2B; 0x2C]%N.

Definition urlencodedSet (b : N) : bool :=
  componentSet b || among b [0x21]%N || between 0x27 0x29 b
  || among b [0x7E]%N.

(** *** Percent-encoding *)

Definition hexDigit (n : N) : code_unit :=
  if (n <? 10)%N then (0x30 + n)%N else (0x41 + (n - 10))%N.

(** "%" and the byte as two upper-case hexadecimal digits. *)
Definition percentEncodeByte (b : N) : jsstring :=
  [0x25%N; hexDigit (N.shiftr b 4); hexDigit (N.land b 0xF)].

Definition encodeByte (inSet : N -> bool) (spaceAsPlus : bool) (b : N)
  : jsstring :=
  if spaceAsPlus && (b =? 0x20)%N then [0x2B%N]
  else if inSet b then percentEncodeByte b
  else [b].

(** "percent-encode after encoding" with UTF-8. *)
Definition percentEncodeAfterEncoding
  (inSet : N -> bool) (spaceAsPlus : bool) (s : jsstring) : jsstring :=
  flat_map (encodeByte inSet spaceAsPlus) (utf8Encode s).

(** The encoder of the application/x-www-form-urlencoded serializer. *)
Definition urlencode (s : jsstring) : jsstring :=
  percentEncodeAfterEncoding urlencodedSet true s.

(** One round of the serializer's loop over the tuples. *)
Definition serializeTuple (output : jsstring) (tuple : jsstring * jsstring)
  : jsstring :=
  let name := urlencode (fst tuple) in
  let value := urlencode (snd tuple) in
  let output := if truthy output then output ++ [0x26%N] else output in
  output ++ name ++ [0x3D%N] ++ value.

(** [params.toString()] *)
Definition toString (l : t) : jsstring := fold_left serializeTuple l [].

End URLSearchParams.

(** ** The encoding the specification names

    "Standard URL component percent-encoding": the URL standard's component
    percent-encode set, with which UTF-8 percent-encoding gives what
    [encodeURIComponent] gives.  Kept apart from the serializer above, to
    compare the two. *)

Module ComponentEncoding.

Definition encodeComponent (s : jsstring) : jsstring :=
  URLSearchParams.percentEncodeAfterEncoding
    URLSearchParams.componentSet false s.

Definition pair (tuple : jsstring * jsstring) : jsstring :=
  encodeComponent (fst tuple) ++ [0x3D%N] ++ encodeComponent (snd tuple).

Definition serialize (l : list (jsstring * jsstring)) : jsstring :=
  join [0x26%N] (map pair l).

End ComponentEncoding.

(** ** FormData, Set and the form's controls (HTML and ECMAScript) *)

Module FormData.

(** The entry list of [new FormData(form)], in tree order of the
    controls.  Entry values are strings; a file control, whose entries
    are [File] objects, is outside this model. *)
Definition t := list (jsstring * jsstring).

(** [formData.keys()] *)
Definition keys (fd : t) : list jsstring := map fst fd.

(** [formData.getAll(name)] *)
Definition getAll (fd : t) (name : jsstring) : list jsstring :=
  map snd (filter (fun entry => str_eqb (fst entry) name) fd).

End FormData.

Module JsSet.

(** A [Set] of strings, listed in insertion order (the order its
    iterator visits). *)
Definition has (s : list jsstring) (x : jsstring) : bool :=
  existsb (str_eqb x) s.

Definition add (s : list jsstring) (x : jsstring) : list jsstring :=
  if has s x then s else s ++ [x].

(** [new Set(array)] *)
Definition ofArray (l : list jsstring) : list jsstring :=
  fold_left add l [].

End JsSet.

(** What the code reads of a form control: [type] and
    [dataset.array] (the [data-array] attribute, when there is one). *)
Record HTMLElement := mkElement {
  type : jsstring;
  dataset_array : option jsstring
}.

(** [form.elements[name]]: the control when one control bears the name, a
    [RadioNodeList] of them when several do.  A [RadioNodeList] is a
    [NodeList] with a [value]: it has no [type] and no [dataset]. *)
Inductive NamedItem :=
| Control (e : HTMLElement)
| RadioNodeList (members : list HTMLElement).

(** [item.type]; [None] is [undefined]. *)
Definition item_type (item : NamedItem) : option jsstring :=
  match item with
  | Control e => Some (type e)
  | RadioNodeList _ => None
  end.

(** [item.dataset]; [None] is [undefined], [Some d] a map whose [array]
    property is [d]. *)
Definition item_dataset (item : NamedItem) : option (option jsstring) :=
  match item with
  | Control e => Some (dataset_array e)
  | RadioNodeList _ => None
  end.

(** [x === 'literal'] where [x] is a string or [undefined]. *)
Definition strictEq (x : option jsstring) (literal : jsstring) : bool :=
  match x with
  | Some s => str_eqb s literal
  | None => false
  end.

(** ** Completions *)

Inductive JsError := TypeError.

Inductive Completion (A : Type) :=
| Normal (a : A)
| Throw (e : JsError).

Arguments Normal {A} a.
Arguments Throw {A} e.

Definition bind {A B} (c : Completion A) (k : A -> Completion B)
  : Completion B :=
  match c with
  | Normal a => k a
  | Throw e => Throw e
  end.

Notation "x <- c ;; k" := (bind c (fun x => k))
  (at level 61, c at next level, right associativity).

(** [for (const x of xs) body], the body run on the state in turn; a
    throw leaves the loop. *)
Fixpoint forOf {A S} (xs : list A) (body : A -> S -> Completion S) (s : S)
  : Completion S :=
  match xs with
  | [] => Normal s
  | x :: xs' => s' <- body x s ;; forOf xs' body s'
  end.

(** ** [updateUrl] *)

Import URLSearchParams.

(** Lines 76-104: the body of the loop for one key, after [element] and
    [allValues] are read; [continue] returns the parameters as they are. *)
Definition encodeField (key : jsstring) (element : option NamedItem)
  (allValues : list jsstring) (params : URLSearchParams.t)
  : Completion URLSearchParams.t :=
  match allValues with
  | [] => Normal params
  | [value] =>
      if negb (truthy value) then Normal params
      else if match element with
              | Some item => strictEq (item_type item) (js "checkbox")
              | None => false
              end
      then Normal (set params key (js "true"))
      else
        match element with
        | Some item =>
            match item_dataset item with
            | None => Throw TypeError
            | Some array =>
                if strictEq array (js "comma") then
                  let values :=
                    filter truthy (map trim (split 44%N value)) in
                  Normal (fold_left (fun ps v => append ps key v)
                            values params)
                else Normal (set params key value)
            end
        | None => Normal (set params key value)
        end
  | _ =>
      Normal (fold_left
                (fun ps v => if truthy v then append ps key v else ps)
                allValues params)
  end.

(** The page state the script reads and writes. *)
Record Page := mkPage {
  form_entries : FormData.t;
  form_elements : jsstring -> option NamedItem;
  baseUrlInput_value : jsstring;
  baseUrlInput_readOnly : bool;
  toggleLockBtn_textContent : jsstring;
  generatedUrlTextarea_value : jsstring;
  goToFbButton_href : jsstring
}.

Record BuildResult := mkResult {
  queryString : jsstring;
  finalUrl : jsstring
}.

(** Lines 70-105: the loop over the keys. *)
Definition collectParams (p : Page) : Completion URLSearchParams.t :=
  let formData := form_entries p in
  let keys := JsSet.ofArray (FormData.keys formData) in
  forOf keys
    (fun key params =>
       encodeField key (form_elements p key) (FormData.getAll formData key)
         params)
    URLSearchParams.empty.

(** Lines 110-115. *)
Definition makeFinalUrl (baseUrl paramString : jsstring) : jsstring :=
  let baseUrl :=
    if negb (endsWith baseUrl (js "/")) then baseUrl ++ js "/"
    else baseUrl in
  baseUrl ++ (if truthy paramString then js "?" ++ paramString else []).

(** Lines 66-115: everything [updateUrl] computes. *)
Definition build (p : Page) : Completion BuildResult :=
  params <- collectParams p ;;
  let paramString := toString params in
  Normal {| queryString := paramString;
            finalUrl := makeFinalUrl (baseUrlInput_value p) paramString |}.

(** Lines 65-120. *)
Definition updateUrl (p : Page) : Completion Page :=
  r <- build p ;;
  Normal {| form_entries := form_entries p;
            form_elements := form_elements p;
            baseUrlInput_value := baseUrlInput_value p;
            baseUrlInput_readOnly := baseUrlInput_readOnly p;
            toggleLockBtn_textContent := toggleLockBtn_textContent p;
            generatedUrlTextarea_value := finalUrl r;
            goToFbButton_href := finalUrl r |}.

(** Lines 125-128; the two labels are U+1F513 and U+1F512. *)
Definition toggleLock (p : Page) : Page :=
  let readOnly := negb (baseUrlInput_readOnly p) in
  {| form_entries := form_entries p;
     form_elements := form_elements p;
     baseUrlInput_value := baseUrlInput_value p;
     baseUrlInput_readOnly := readOnly;
     toggleLockBtn_textContent :=
       if readOnly then [0xD83D; 0xDD13]%N else [0xD83D; 0xDD12]%N;
     generatedUrlTextarea_value := generatedUrlTextarea_value p;
     goToFbButton_href := goToFbButton_href p |}.

(** ** Descriptions used in the statements *)

(** The bytes the form serializer leaves as they are: ASCII letters and
    digits and [* - . _]. *)
Definition isAlphanumeric (b : N) : bool :=
  between 0x30 0x39 b || between 0x41 0x5A b || between 0x61 0x7A b.

Definition keptByte (b : N) : bool :=
  isAlphanumeric b || among b [0x2A; 0x2D; 0x2E; 0x5F]%N.

Definition formByte (b : N) : jsstring :=
  if (b =? 0x20)%N then [0x2B%N]
  else if keptByte b then [b]
  else percentEncodeByte b.

(** [name=value] of one tuple, both sides encoded. *)
Definition tupleString (tuple : jsstring * jsstring) : jsstring :=
  urlencode (fst tuple) ++ [0x3D%N] ++ urlencode (snd tuple).

(** The names in a parameter list. *)
Definition names (l : URLSearchParams.t) : list jsstring := map fst l.

(** The pairs of one key. *)
Definition pairs (key : jsstring) (values : list jsstring)
  : list (jsstring * jsstring) :=
  map (fun v => (key, v)) values.

(** The one way an iteration of the loop throws: a single non-empty value
    whose named item is an object without [dataset] (and is not taken for a
    checkbox first). *)
Definition throwsAt (p : Page) (key : jsstring) : bool :=
  match FormData.getAll (form_entries p) key, form_elements p key with
  | [value], Some item =>
      truthy value
      && negb (strictEq (item_type item) (js "checkbox"))
      && match item_dataset item with None => true | Some _ => false end
  | _, _ => false
  end.

(** ** Sample controls and pages *)

Definition textComma : HTMLElement := mkElement (js "text") (Some (js "comma")).

Definition commaCheckbox : HTMLElement :=
  mkElement (js "checkbox") (Some (js "comma")).

Definition checkbox : HTMLElement := mkElement (js "checkbox") None.

Definition selectOne : HTMLElement := mkElement (js "select-one") None.

(** The item-condition check boxes, which share one name. *)
Definition conditionGroup : NamedItem := RadioNodeList [checkbox; checkbox].

Definition marketplaceControls (name : jsstring) : option NamedItem :=
  if str_eqb name (js "sortBy") then Some (Control selectOne)
  else if str_eqb name (js "itemCondition") then Some conditionGroup
  else if str_eqb name (js "keywords") then Some (Control textComma)
  else if str_eqb name (js "availability") then Some (Control checkbox)
  else None.

Definition pageOf (entries : FormData.t) (baseUrl : jsstring) : Page :=
  {| form_entries := entries;
     form_elements := marketplaceControls;
     baseUrlInput_value := baseUrl;
     baseUrlInput_readOnly := true;
     toggleLockBtn_textContent := [0xD83D; 0xDD13]%N;
     generatedUrlTextarea_value := [];
     goToFbButton_href := [] |}.

Definition marketplace : jsstring :=
  js "https://www.facebook.com/marketplace/search".

(** Exactly one item-condition box is checked. *)
Definition oneConditionChecked : Page :=
  pageOf [(js "itemCondition", js "new")] marketplace.

(** A keyword of two words. *)
Definition spacedKeyword : Page :=
  pageOf [(js "sortBy", []); (js "keywords", js "red car")] marketplace.

Definition sampleSearch : Page :=
  pageOf [(js "sortBy", js "price_ascend");
          (js "itemCondition", js "new");
          (js "itemCondition", js "used");
          (js "keywords", js "car, truck , ");
          (js "availability", js "on")]
    (js "https://x.com/market").

Definition emptyForm : Page := pageOf [] (js "https://x.com/").


(** ** Objects and the option tables (lines 16-59) *)

Module JsObject.

(** The own string-keyed properties of an ordinary object, in the order
    they were created. *)
Definition t (V : Type) := list (jsstring * V).

(** Defining a property: a key the object has keeps its place and takes
    the value, a new key goes last. *)
Fixpoint define {V} (o : t V) (key : jsstring) (v : V) : t V :=
  match o with
  | [] => [(key, v)]
  | (k, w) :: o' =>
      if str_eqb k key then (k, v) :: o' else (k, w) :: define o' key v
  end.

(** An object literal [{ k1: v1, k2: v2, ... }]. *)
Definition literal {V} (props : list (jsstring * V)) : t V :=
  fold_left (fun o kv => define o (fst kv) (snd kv)) props [].

Definition isDigit (c : code_unit) : bool := ((48 <=? c) && (c <=? 57))%N.

Definition digitsValue (s : jsstring) : N :=
  fold_left (fun acc c => acc * 10 + (c - 48))%N s 0%N.

(** An array index: the canonical decimal string of an integer below
    2^32 - 1 (no sign, no leading zero). *)
Definition arrayIndex (key : jsstring) : option N :=
  match key with
  | [] => None
  | c :: rest =>
      if forallb isDigit key
         && (negb (c =? 48)%N || match rest with [] => true | _ => false end)
      then if (digitsValue key <? 4294967295)%N
           then Some (digitsValue key) else None
      else None
  end.

Fixpoint insertByIndex {V} (e : N * (jsstring * V))
  (sorted : list (N * (jsstring * V))) : list (N * (jsstring * V)) :=
  match sorted with
  | [] => [e]
  | e' :: rest =>
      if (fst e <=? fst e')%N then e :: sorted
      else e' :: insertByIndex e rest
  end.

Definition sortByIndex {V} (l : list (N * (jsstring * V)))
  : list (N * (jsstring * V)) :=
  fold_right insertByIndex [] l.

(** The properties whose key is an array index, with the index. *)
Definition indexed {V} (o : t V) : list (N * (jsstring * V)) :=
  flat_map (fun kv => match arrayIndex (fst kv) with
                      | Some i => [(i, kv)]
                      | None => []
                      end) o.

Definition named {V} (o : t V) : t V :=
  filter (fun kv => match arrayIndex (fst kv) with
                    | Some _ => false
                    | None => true
                    end) o.

(** [Object.entries(o)]: the array-index keys in ascending numeric order,
    then the other keys in creation order. *)
Definition entries {V} (o : t V) : list (jsstring * V) :=
  map snd (sortByIndex (indexed o)) ++ named o.

End JsObject.

(** An [option] element as the script makes it. *)
Record OptionElement := mkOption {
  option_value : jsstring;
  option_textContent : jsstring
}.

(** [document.getElementById(id)]: the children the script appended to the
    element and those it had, or [None] for [null]. *)
Definition Document := jsstring -> option (list OptionElement).

(** [element.appendChild(child)] on the element of that id. *)
Definition appendChild (doc : Document) (id : jsstring)
  (child : OptionElement) : Document :=
  fun other =>
    if str_eqb other id
    then match doc id with
         | Some children => Some (children ++ [child])
         | None => None
         end
    else doc other.

(** Lines 16-41. *)
Definition selectOptions : JsObject.t (JsObject.t jsstring) :=
  JsObject.literal
    [(js "sortBy",
      JsObject.literal
        [([], js "Default (Best Match)");
         (js "best_match", js "Best Match");
         (js "distance_ascend", js "Distance: Nearest First");
         (js "creation_time_descend", js "Date: Newest First");
         (js "price_ascend", js "Price: Lowest First");
         (js "price_descend", js "Price: Highest First")]);
     (js "daysSinceListed",
      JsObject.literal
        [([], js "Any Time");
         (js "1", js "Last 24 Hours");
         (js "7", js "Last 7 Days");
         (js "30", js "Last 30 Days")]);
     (js "deliveryMethod",
      JsObject.literal
        [([], js "Any");
         (js "local_pick_up", js "Local Pick-up");
         (js "shipping", js "Shipping")]);
     (js "transmissionType",
      JsObject.literal
        [([], js "Any");
         (js "automatic", js "Automatic");
         (js "manual", js "Manual")])].

(** Lines 51-56: the options of one table appended to one element. *)
Definition appendOptions (selectId : jsstring) (options : JsObject.t jsstring)
  (doc : Document) : Document :=
  fold_left
    (fun doc entry =>
       appendChild doc selectId
         {| option_value := fst entry; option_textContent := snd entry |})
    (JsObject.entries options) doc.

(** Lines 47-59, for a table of option tables. *)
Definition populateSelectOptionsFrom
  (tables : JsObject.t (JsObject.t jsstring)) (doc : Document) : Document :=
  fold_left
    (fun doc entry =>
       let selectId := fst entry in
       let options := snd entry in
       match doc selectId with
       | Some _ => appendOptions selectId options doc
       | None => doc
       end)
    (JsObject.entries tables) doc.

Definition populateSelectOptions (doc : Document) : Document :=
  populateSelectOptionsFrom selectOptions doc.

(** The elements [populateSelectOptions] adds for one table. *)
Definition optionsOf (options : JsObject.t jsstring) : list OptionElement :=
  map (fun entry => mkOption (fst entry) (snd entry))
    (JsObject.entries options).

(** ** The copy button (lines 134-150) *)

Module ClassList.

(** A [DOMTokenList]: tokens without repetition, in order. *)
Definition contains (l : list jsstring) (token : jsstring) : bool :=
  existsb (str_eqb token) l.

Definition add (l : list jsstring) (token : jsstring) : list jsstring :=
  if contains l token then l else l ++ [token].

Definition remove (l : list jsstring) (token : jsstring) : list jsstring :=
  filter (fun t => negb (str_eqb t token)) l.

End ClassList.

(** What [copyUrl] and its timer read and write besides the page. *)
Record CopyUi := mkCopyUi {
  copyUrlButton_textContent : jsstring;
  copyUrlButton_classList : list jsstring;
  clipboard_text : option jsstring;
  timers : list N;
  console_errors : nat;
  alerts : list jsstring
}.

(** Lines 141-144: the callback given to [setTimeout]. *)
Definition revertCopyButton (u : CopyUi) : CopyUi :=
  {| copyUrlButton_textContent := js "Copy URL";
     copyUrlButton_classList :=
       ClassList.remove (copyUrlButton_classList u) (js "copied");
     clipboard_text := clipboard_text u;
     timers := timers u;
     console_errors := console_errors u;
     alerts := alerts u |}.

(** Lines 137-144: the rest of the [try] block once the awaited write of
    [text] is fulfilled; the callback is scheduled with its delay. *)
Definition copyUrl_fulfilled (text : jsstring) (u : CopyUi) : CopyUi :=
  {| copyUrlButton_textContent := js "Copied!";
     copyUrlButton_classList :=
       ClassList.add (copyUrlButton_classList u) (js "copied");
     clipboard_text := Some text;
     timers := timers u ++ [2000%N];
     console_errors := console_errors u;
     alerts := alerts u |}.

(** Lines 145-149: the [catch] block. *)
Definition copyUrl_catch (u : CopyUi) : CopyUi :=
  {| copyUrlButton_textContent := copyUrlButton_textContent u;
     copyUrlButton_classList := copyUrlButton_classList u;
     clipboard_text := clipboard_text u;
     timers := timers u;
     console_errors := S (console_errors u);
     alerts := alerts u ++ [js "Failed to copy. Please copy manually."] |}.

(** The function resumed when the awaited promise settles: the rest of
    the [try] block when it is fulfilled, the [catch] block when it is
    rejected. *)
Definition copyUrl_resume (fulfilled : bool) (text : jsstring) (u : CopyUi)
  : CopyUi :=
  if fulfilled then copyUrl_fulfilled text u else copyUrl_catch u.

(** ** Reading a query string back (URL standard)

    The parser of application/x-www-form-urlencoded, up to the bytes of
    each name and value (before they are decoded as UTF-8). *)

Module FormDecoding.

Definition isHexDigit (c : N) : bool :=
  between 0x30 0x39 c || between 0x41 0x46 c || between 0x61 0x66 c.

Definition hexValue (c : N) : N :=
  if between 0x30 0x39 c then (c - 0x30)%N
  else if between 0x41 0x46 c then (c - 0x37)%N
  else (c - 0x57)%N.

(** Percent-decode. *)
Fixpoint percentDecode (s : list N) : list N :=
  match s with
  | [] => []
  | c :: tl =>
      if (c =? 0x25)%N then
        match tl with
        | h1 :: h2 :: rest =>
            if isHexDigit h1 && isHexDigit h2
            then (hexValue h1 * 16 + hexValue h2)%N :: percentDecode rest
            else c :: percentDecode tl
        | _ => c :: percentDecode tl
        end
      else c :: percentDecode tl
  end.

Definition plusToSpace (c : N) : N := if (c =? 0x2B)%N then 0x20%N else c.

Definition decodeComponent (s : list N) : list N :=
  percentDecode (map plusToSpace s).

(** The part before the first [sep] and the part after it. *)
Fixpoint breakAt (sep : N) (s : list N) : option (list N * list N) :=
  match s with
  | [] => None
  | c :: tl =>
      if (c =? sep)%N then Some ([], tl)
      else match breakAt sep tl with
           | Some (front, back) => Some (c :: front, back)
           | None => None
           end
  end.

Definition parseSequence (bytes : list N) : list (list N * list N) :=
  match bytes with
  | [] => []
  | _ :: _ =>
      match breakAt 0x3D%N bytes with
      | Some (name, value) => [(decodeComponent name, decodeComponent value)]
      | None => [(decodeComponent bytes, [])]
      end
  end.

Definition parse (input : list N) : list (list N * list N) :=
  flat_map parseSequence (split 0x26%N input).

End FormDecoding.

(** A string whose code units are 16-bit. *)
Definition wfString (s : jsstring) : Prop := Forall (fun c => (c < 65536)%N) s.

Definition wfPairs (l : list (jsstring * jsstring)) : Prop :=
  Forall (fun tuple => wfString (fst tuple) /\ wfString (snd tuple)) l.

(** The code units a query string is made of. *)
Definition queryCodeUnit (c : code_unit) : bool :=
  keptByte c || among c [0x2B; 0x25; 0x3D; 0x26]%N.

(** What one key gives when nothing was collected before it. *)
Definition fieldPairs (p : Page) (key : jsstring)
  : list (jsstring * jsstring) :=
  match encodeField key (form_elements p key)
          (FormData.getAll (form_entries p) key) [] with
  | Normal l => l
  | Throw _ => []
  end.

(** * Properties *)

(** ** Strings *)

Section StringFacts.

Lemma str_eqb_eq (a b : jsstring) : str_eqb a b = true <-> a = b.
Proof.
  revert b; induction a as [|x a IH]; intros [|y b]; simpl;
    try (split; (discriminate || reflexivity)).
  rewrite andb_true_iff, N.eqb_eq, IH.
  split; [intros [-> ->]; reflexivity | intros E; inversion E; auto].
Qed.

Lemma str_eqb_refl (a : jsstring) : str_eqb a a = true.
Proof. apply str_eqb_eq; reflexivity. Qed.

Lemma str_eqb_neq (a b : jsstring) : str_eqb a b = false <-> a <> b.
Proof.
  rewrite <- str_eqb_eq. destruct (str_eqb a b); split; congruence.
Qed.

Lemma truthy_nonempty (s : jsstring) : truthy s = true <-> s <> [].
Proof. destruct s; simpl; split; congruence. Qed.

Lemma truthy_false (s : jsstring) : truthy s = false <-> s = [].
Proof. destruct s; simpl; split; congruence. Qed.

(** [trimStart] removes a prefix of white space and stops at the first
    code unit that is not. *)
Lemma trimStart_decompose (s : jsstring) :
  exists ws, s = ws ++ trimStart s /\ forallb isWhiteSpace ws = true.
Proof.
  induction s as [|c s [ws [E W]]]; simpl.
  - exists []; auto.
  - destruct (isWhiteSpace c) eqn:Hc.
    + exists (c :: ws); simpl. rewrite Hc, W, <- E. auto.
    + exists []; auto.
Qed.

Lemma trimStart_head (s : jsstring) c r :
  trimStart s = c :: r -> isWhiteSpace c = false.
Proof.
  induction s as [|d s IH]; simpl; [discriminate|].
  destruct (isWhiteSpace d) eqn:Hd; auto.
  intros E; inversion E; subst; assumption.
Qed.

Lemma trimEnd_decompose (s : jsstring) :
  exists ws, s = trimEnd s ++ ws /\ forallb isWhiteSpace ws = true.
Proof.
  unfold trimEnd.
  destruct (trimStart_decompose (rev s)) as [ws [E W]].
  exists (rev ws); split.
  - rewrite <- rev_app_distr, <- E, rev_involutive; reflexivity.
  - rewrite forallb_forall in *. intros x Hx. apply W, in_rev, Hx.
Qed.

(** [trim] removes white space on both sides and nothing else. *)
Lemma trim_decompose (s : jsstring) :
  exists before after,
    s = before ++ trim s ++ after
    /\ forallb isWhiteSpace before = true
    /\ forallb isWhiteSpace after = true.
Proof.
  destruct (trimStart_decompose s) as [before [E1 W1]].
  destruct (trimEnd_decompose (trimStart s)) as [after [E2 W2]].
  exists before, after. unfold trim. rewrite <- E2. auto.
Qed.

Lemma trimEnd_last (s : jsstring) r c :
  trimEnd s = r ++ [c] -> isWhiteSpace c = false.
Proof.
  unfold trimEnd. intros E.
  apply (f_equal (@rev _)) in E.
  rewrite rev_involutive, rev_app_distr in E. simpl in E.
  eapply trimStart_head; eassumption.
Qed.

Lemma trimEnd_head (s : jsstring) c r :
  trimEnd s = c :: r -> exists r', s = c :: r'.
Proof.
  destruct (trimEnd_decompose s) as [ws [E _]]. intros H.
  rewrite H in E. exists (r ++ ws). exact E.
Qed.

(** What [trim] returns neither starts nor ends with white space. *)
Lemma trim_first (s : jsstring) c r :
  trim s = c :: r -> isWhiteSpace c = false.
Proof.
  unfold trim. intros H. apply trimEnd_head in H as [r' H].
  eapply trimStart_head; eassumption.
Qed.

Lemma trim_last (s : jsstring) r c :
  trim s = r ++ [c] -> isWhiteSpace c = false.
Proof. unfold trim. apply trimEnd_last. Qed.

Lemma split_nonempty sep (s : jsstring) : split sep s <> [].
Proof.
  destruct s as [|c s]; simpl; [discriminate|].
  destruct (N.eqb c sep); [discriminate|].
  destruct (split sep s); discriminate.
Qed.

(** Joining the pieces with the separator gives the string back ... *)
Lemma split_join sep (s : jsstring) : join [sep] (split sep s) = s.
Proof.
  induction s as [|c s IH]; simpl; [reflexivity|].
  destruct (N.eqb c sep) eqn:Hc.
  - apply N.eqb_eq in Hc; subst c.
    pose proof (split_nonempty sep s) as Hn.
    destruct (split sep s) as [|q qs]; [congruence|].
    change (join [sep] ([] :: q :: qs))
      with ([] ++ [sep] ++ join [sep] (q :: qs)).
    rewrite IH. reflexivity.
  - pose proof (split_nonempty sep s) as Hn.
    destruct (split sep s) as [|q qs]; [congruence|].
    destruct qs as [|q' qs].
    + simpl in *. rewrite IH; reflexivity.
    + change (join [sep] ((c :: q) :: q' :: qs))
        with (c :: q ++ [sep] ++ join [sep] (q' :: qs)).
      change (join [sep] (q :: q' :: qs))
        with (q ++ [sep] ++ join [sep] (q' :: qs)) in IH.
      rewrite IH. reflexivity.
Qed.

(** ... and no piece holds the separator. *)
Lemma split_no_sep sep (s : jsstring) :
  Forall (fun piece => ~ In sep piece) (split sep s).
Proof.
  induction s as [|c s IH]; simpl.
  - constructor; auto.
  - destruct (N.eqb c sep) eqn:Hc.
    + constructor; auto.
    + destruct (split sep s) as [|q qs].
      * constructor; auto. intros [H|[]]. subst.
        rewrite N.eqb_refl in Hc; discriminate.
      * inversion IH; subst. constructor; auto.
        intros [H|H]; [subst; rewrite N.eqb_refl in Hc; discriminate|auto].
Qed.

Lemma endsWith_spec (s search : jsstring) :
  endsWith s search = true <-> exists front, s = front ++ search.
Proof.
  unfold endsWith.
  destruct (Nat.ltb_spec (List.length s) (List.length search)) as [Hlt|Hge].
  - split; [discriminate|]. intros [front E]. subst s.
    rewrite length_app in Hlt. lia.
  - rewrite str_eqb_eq. split.
    + intros E.
      exists (firstn (List.length s - List.length search) s).
      pose proof (firstn_skipn (List.length s - List.length search) s) as F.
      rewrite E in F. symmetry; exact F.
    + intros [front E]. subst s.
      rewrite length_app.
      replace (List.length front + List.length search - List.length search)
        with (List.length front + 0) by lia.
      rewrite skipn_app, Nat.add_0_r, skipn_all.
      replace (List.length front - List.length front) with 0 by lia.
      reflexivity.
Qed.

End StringFacts.

(** ** URLSearchParams *)

Section ParamsFacts.

(** On a list without the name, [set] is [append]. *)
Lemma set_fresh (l : URLSearchParams.t) name value :
  ~ In name (names l) -> set l name value = append l name value.
Proof.
  unfold append, names.
  induction l as [|[n v] l IH]; simpl; intros H; [reflexivity|].
  destruct (str_eqb n name) eqn:E.
  - apply str_eqb_eq in E. tauto.
  - rewrite IH by tauto. reflexivity.
Qed.

Lemma names_remove_name (l : URLSearchParams.t) name n :
  In n (names (remove_name name l)) -> In n (names l).
Proof.
  unfold names, remove_name. rewrite !in_map_iff.
  intros [x [E H]]. apply filter_In in H. exists x; tauto.
Qed.

Lemma names_set (l : URLSearchParams.t) name value n :
  In n (names (set l name value)) -> In n (names l) \/ n = name.
Proof.
  induction l as [|[m v] l IH]; simpl.
  - intros [H|[]]; auto.
  - destruct (str_eqb m name) eqn:E; simpl.
    + intros [H|H]; auto. apply names_remove_name in H; auto.
    + intros [H|H]; auto. destruct (IH H); auto.
Qed.

Lemma Forall_remove_name (P : jsstring * jsstring -> Prop) l name :
  Forall P l -> Forall P (remove_name name l).
Proof.
  unfold remove_name. rewrite !Forall_forall.
  intros H x Hx. apply filter_In in Hx. apply H; tauto.
Qed.

Lemma Forall_set (P : jsstring * jsstring -> Prop) l name value :
  Forall P l -> P (name, value) -> Forall P (set l name value).
Proof.
  intros Hl Hp. induction l as [|[m v] l IH]; simpl.
  - constructor; auto.
  - inversion Hl; subst.
    destruct (str_eqb m name) eqn:E.
    + apply str_eqb_eq in E; subst m.
      constructor; auto using Forall_remove_name.
    + constructor; auto.
Qed.

(** [values.forEach(v => params.append(key, v))] *)
Lemma forEach_append key (values : list jsstring) params :
  fold_left (fun ps v => append ps key v) values params
  = params ++ pairs key values.
Proof.
  revert params; induction values as [|v values IH]; intros params; simpl.
  - rewrite app_nil_r; reflexivity.
  - rewrite IH. unfold append. rewrite <- app_assoc. reflexivity.
Qed.

(** [allValues.forEach(v => { if (v) params.append(key, v); })] *)
Lemma forEach_append_truthy key (values : list jsstring) params :
  fold_left (fun ps v => if truthy v then append ps key v else ps)
    values params
  = params ++ pairs key (filter truthy values).
Proof.
  revert params; induction values as [|v values IH]; intros params; simpl.
  - rewrite app_nil_r; reflexivity.
  - rewrite IH. destruct (truthy v); simpl; [|reflexivity].
    unfold append. rewrite <- app_assoc. reflexivity.
Qed.

Lemma names_pairs key values n : In n (names (pairs key values)) -> n = key.
Proof.
  unfold names, pairs. rewrite map_map. simpl.
  rewrite in_map_iff. intros [x [E _]]. congruence.
Qed.

(** *** The serializer *)

Lemma ascii_range (P : N -> Prop) (check : N -> bool) :
  (forall b, check b = true -> P b) ->
  forallb (fun n => check (N.of_nat n)) (seq 0 127) = true ->
  forall b, (b <= 126)%N -> P b.
Proof.
  intros Hc Hall b Hb. apply Hc.
  rewrite forallb_forall in Hall.
  rewrite <- (N2Nat.id b). apply Hall. apply in_seq. lia.
Qed.

(** The percent-encode set of the form serializer is the complement of
    the kept bytes. *)
Lemma urlencodedSet_kept (b : N) : urlencodedSet b = negb (keptByte b).
Proof.
  destruct (N.le_gt_cases b 126) as [Hle|Hgt].
  - revert b Hle.
    apply (@ascii_range _
             (fun b => Bool.eqb (urlencodedSet b) (negb (keptByte b)))).
    + intros b. apply Bool.eqb_prop.
    + vm_compute. reflexivity.
  - assert (Hk : keptByte b = false).
    { unfold keptByte, isAlphanumeric, between, among. simpl.
      repeat match goal with
             | |- context [(b <=? ?x)%N] =>
                 replace (b <=? x)%N with false
                   by (symmetry; apply N.leb_gt; lia)
             | |- context [(b =? ?x)%N] =>
                 replace (b =? x)%N with false
                   by (symmetry; apply N.eqb_neq; lia)
             end.
      rewrite !andb_false_r. reflexivity. }
    rewrite Hk. simpl.
    unfold urlencodedSet, componentSet, userinfoSet, pathSet, querySet,
      c0ControlSet.
    replace (126 <? b)%N with true by (symmetry; apply N.ltb_lt; lia).
    rewrite orb_true_r. reflexivity.
Qed.

Lemma encodeByte_form (b : N) : encodeByte urlencodedSet true b = formByte b.
Proof.
  unfold encodeByte, formByte. simpl.
  destruct (b =? 32)%N; [reflexivity|].
  rewrite urlencodedSet_kept. destruct (keptByte b); reflexivity.
Qed.

(** The encoder, byte by byte: space as "+", letters, digits and
    [* - . _] kept, every other byte of the UTF-8 encoding as %HH. *)
Lemma urlencode_form (s : jsstring) :
  urlencode s = flat_map formByte (utf8Encode s).
Proof.
  unfold urlencode, percentEncodeAfterEncoding.
  induction (utf8Encode s) as [|b bs IH]; simpl; [reflexivity|].
  rewrite encodeByte_form, IH. reflexivity.
Qed.

Lemma tupleString_nonempty tuple : tupleString tuple <> [].
Proof.
  unfold tupleString. destruct (urlencode (fst tuple)); discriminate.
Qed.

Lemma serializeTuple_empty tuple :
  serializeTuple [] tuple = tupleString tuple.
Proof. reflexivity. Qed.

Lemma serializeTuple_more output tuple :
  output <> [] ->
  serializeTuple output tuple = output ++ [0x26%N] ++ tupleString tuple.
Proof.
  intros H. unfold serializeTuple, tupleString.
  destruct output; [congruence|]. simpl truthy. cbv iota.
  rewrite <- app_assoc. reflexivity.
Qed.

Lemma serialize_from output (l : URLSearchParams.t) :
  output <> [] ->
  fold_left serializeTuple l output
  = match l with
    | [] => output
    | _ :: _ => output ++ [0x26%N] ++ join [0x26%N] (map tupleString l)
    end.
Proof.
  revert output; induction l as [|a l IH]; intros output H;
    [reflexivity|].
  simpl fold_left. rewrite serializeTuple_more by assumption.
  rewrite IH.
  2:{ destruct output; [congruence|discriminate]. }
  destruct l as [|b l]; [reflexivity|].
  change (join [38%N] (map tupleString (a :: b :: l)))
    with (tupleString a ++ [38%N] ++ join [38%N] (map tupleString (b :: l))).
  rewrite <- !app_assoc. reflexivity.
Qed.

(** [toString] is the tuples' [name=value] strings joined with "&". *)
Lemma toString_join (l : URLSearchParams.t) :
  toString l = join [0x26%N] (map tupleString l).
Proof.
  unfold toString. destruct l as [|a l]; [reflexivity|].
  simpl fold_left. rewrite serializeTuple_empty.
  rewrite serialize_from by apply tupleString_nonempty.
  destruct l; reflexivity.
Qed.

Lemma toString_empty_iff (l : URLSearchParams.t) :
  toString l = [] <-> l = [].
Proof.
  split; [|intros ->; reflexivity].
  rewrite toString_join. destruct l as [|a l]; [reflexivity|].
  intros H. exfalso.
  pose proof (tupleString_nonempty a) as Ha.
  destruct l as [|b l].
  - simpl in H. auto.
  - change (join [38%N] (map tupleString (a :: b :: l)))
      with (tupleString a ++ [38%N] ++ join [38%N] (map tupleString (b :: l)))
      in H.
    apply app_eq_nil in H. tauto.
Qed.

End ParamsFacts.

(** ** The loop over the keys *)

Section LoopFacts.

Lemma Normal_inj {A} (a b : A) : Normal a = Normal b -> a = b.
Proof. congruence. Qed.

(** The iteration completed with the state on the left of [E]. *)
Ltac returned E :=
  apply Normal_inj in E;
  match type of E with _ = ?x => subst x end.

Lemma has_In (s : list jsstring) x : JsSet.has s x = true <-> In x s.
Proof.
  unfold JsSet.has. rewrite existsb_exists. split.
  - intros [y [Hy E]]. apply str_eqb_eq in E. subst; assumption.
  - intros H. exists x. split; [assumption | apply str_eqb_refl].
Qed.

Lemma ofArray_from_In (l acc : list jsstring) x :
  In x (fold_left JsSet.add l acc) <-> In x acc \/ In x l.
Proof.
  revert acc; induction l as [|y l IH]; intros acc; simpl; [tauto|].
  rewrite IH. unfold JsSet.add.
  destruct (JsSet.has acc y) eqn:E.
  - apply has_In in E. split; [tauto|].
    intros [H|[H|H]]; subst; auto.
  - rewrite in_app_iff. simpl. tauto.
Qed.

(** The keys visited are the names of the entries ... *)
Lemma ofArray_In (l : list jsstring) x : In x (JsSet.ofArray l) <-> In x l.
Proof. unfold JsSet.ofArray. rewrite ofArray_from_In. simpl. tauto. Qed.

Lemma ofArray_from_NoDup (l acc : list jsstring) :
  NoDup acc -> NoDup (fold_left JsSet.add l acc).
Proof.
  revert acc; induction l as [|y l IH]; intros acc H; simpl; [assumption|].
  apply IH. unfold JsSet.add.
  destruct (JsSet.has acc y) eqn:E; [assumption|].
  apply NoDup_app; auto.
  - repeat constructor. intros [].
  - intros a Ha [Hy|[]]. subst a. apply has_In in Ha. congruence.
Qed.

(** ... each one once. *)
Lemma ofArray_NoDup (l : list jsstring) : NoDup (JsSet.ofArray l).
Proof. apply ofArray_from_NoDup. constructor. Qed.

Lemma forOf_ext {A S} (xs : list A) (f g : A -> S -> Completion S) s :
  (forall x, In x xs -> forall s, f x s = g x s) ->
  forOf xs f s = forOf xs g s.
Proof.
  revert s; induction xs as [|x xs IH]; intros s H; simpl; [reflexivity|].
  rewrite (H x) by (left; reflexivity).
  destruct (g x s); simpl; [|reflexivity].
  apply IH. intros y Hy. apply H. right; assumption.
Qed.

(** A property the body keeps holds when the loop completes. *)
Lemma forOf_invariant {A S} (I : list A -> S -> Prop)
  (xs : list A) (body : A -> S -> Completion S) :
  (forall done x s s', I done s -> body x s = Normal s' ->
                       I (done ++ [x]) s') ->
  forall done s s', I done s -> forOf xs body s = Normal s' ->
                    I (done ++ xs) s'.
Proof.
  intros Hbody. induction xs as [|x xs IH]; intros done s s' Hs; simpl.
  - intros E; inversion E; subst. rewrite app_nil_r; assumption.
  - destruct (body x s) as [s1|e] eqn:E; simpl; [|discriminate].
    intros H. replace (done ++ x :: xs) with ((done ++ [x]) ++ xs)
      by (rewrite <- app_assoc; reflexivity).
    eapply IH; eauto.
Qed.

(** The loop throws exactly when the body throws at some element, for a
    body whose throwing does not depend on the state. *)
Lemma forOf_throws {A S} (T : A -> bool) (xs : list A)
  (body : A -> S -> Completion S) :
  (forall x s, body x s = Throw TypeError <-> T x = true) ->
  forall s, forOf xs body s = Throw TypeError <-> existsb T xs = true.
Proof.
  intros HT. induction xs as [|x xs IH]; intros s; simpl.
  - split; discriminate.
  - rewrite orb_true_iff. destruct (body x s) as [s1|[]] eqn:E; simpl.
    + rewrite IH. split; auto. intros [H|H]; auto.
      apply HT with (s := s) in H. congruence.
    + split; auto. intros _. left. apply (HT x s). assumption.
Qed.

(** An iteration adds only pairs named by its key. *)
Lemma encodeField_names key element allValues params params' :
  encodeField key element allValues params = Normal params' ->
  forall n, In n (names params') -> In n (names params) \/ n = key.
Proof.
  unfold encodeField. intros E n.
  assert (Hset : forall v, In n (names (set params key v)) ->
                           In n (names params) \/ n = key)
    by (intros v; apply names_set).
  assert (Happ : forall vs, In n (names (params ++ pairs key vs)) ->
                            In n (names params) \/ n = key).
  { intros vs. unfold names. rewrite map_app, in_app_iff.
    intros [H|H]; auto. right. eapply names_pairs; eassumption. }
  destruct allValues as [|value [|value' rest]].
  - returned E; auto.
  - destruct (truthy value); simpl in E; [|returned E; auto].
    destruct element as [item|].
    + destruct (strictEq (item_type item) (js "checkbox"));
        [returned E; apply Hset|].
      destruct (item_dataset item) as [array|]; [|discriminate].
      destruct (strictEq array (js "comma")).
      * rewrite forEach_append in E. returned E. apply Happ.
      * returned E. apply Hset.
    + returned E. apply Hset.
  - rewrite forEach_append_truthy in E. returned E. apply Happ.
Qed.

(** An iteration adds only pairs with a non-empty value. *)
Lemma encodeField_values key element allValues params params' :
  encodeField key element allValues params = Normal params' ->
  Forall (fun tuple => snd tuple <> []) params ->
  Forall (fun tuple => snd tuple <> []) params'.
Proof.
  unfold encodeField. intros E Hp.
  assert (Happ : forall vs,
             Forall (fun tuple => snd tuple <> [])
               (params ++ pairs key (filter truthy vs))).
  { intros vs. apply Forall_app; split; [assumption|].
    unfold pairs. rewrite Forall_map. simpl.
    rewrite Forall_forall. intros v Hv. apply filter_In in Hv.
    apply truthy_nonempty; tauto. }
  destruct allValues as [|value [|value' rest]].
  - returned E; auto.
  - destruct (truthy value) eqn:Hv; simpl in E;
      [|returned E; auto].
    apply truthy_nonempty in Hv.
    destruct element as [item|].
    + destruct (strictEq (item_type item) (js "checkbox"));
        [returned E; apply Forall_set; auto; discriminate|].
      destruct (item_dataset item) as [array|]; [|discriminate].
      destruct (strictEq array (js "comma")).
      * rewrite forEach_append in E. returned E. apply Happ.
      * returned E. apply Forall_set; auto.
    + returned E. apply Forall_set; auto.
  - rewrite forEach_append_truthy in E. returned E. apply Happ.
Qed.

Lemma encodeField_throws p key params :
  encodeField key (form_elements p key)
    (FormData.getAll (form_entries p) key) params = Throw TypeError
  <-> throwsAt p key = true.
Proof.
  unfold encodeField, throwsAt.
  destruct (FormData.getAll (form_entries p) key) as [|value [|value' rest]];
    try (split; discriminate).
  destruct (truthy value); simpl.
  2:{ destruct (form_elements p key); split; discriminate. }
  destruct (form_elements p key) as [item|]; [|split; discriminate].
  destruct (strictEq (item_type item) (js "checkbox")); simpl;
    [split; discriminate|].
  destruct (item_dataset item) as [array|]; [|split; reflexivity].
  destruct (strictEq array (js "comma")); split; discriminate.
Qed.

(** Inside [updateUrl] the key of an iteration names no parameter yet:
    what the loop has collected bears the names of the keys done. *)
Lemma collected_names p done rest params :
  forOf rest
    (fun key params =>
       encodeField key (form_elements p key)
         (FormData.getAll (form_entries p) key) params) [] = Normal params ->
  done = [] ->
  forall n, In n (names params) -> In n (done ++ rest).
Proof.
  intros E Hd.
  refine (forOf_invariant
            (fun done s => forall n, In n (names s) -> In n done)
            rest _ _ done [] _ E).
  - intros d x s s' Hs Hx n Hn. rewrite in_app_iff. simpl.
    destruct (encodeField_names _ _ _ _ Hx n Hn); auto.
  - intros n [].
Qed.

(** Every parameter [updateUrl] collects is named by an entry. *)
Lemma collectParams_names p params :
  collectParams p = Normal params ->
  forall n, In n (names params) -> In n (FormData.keys (form_entries p)).
Proof.
  unfold collectParams. intros E n Hn.
  apply ofArray_In.
  exact (collected_names p (done := []) _ E eq_refl n Hn).
Qed.

(** [updateUrl] throws exactly when some key is in the throwing case. *)
Lemma collectParams_throws p :
  collectParams p = Throw TypeError
  <-> existsb (throwsAt p)
        (JsSet.ofArray (FormData.keys (form_entries p))) = true.
Proof.
  unfold collectParams. apply forOf_throws.
  intros key s. apply encodeField_throws.
Qed.

Lemma build_of_params p params :
  collectParams p = Normal params ->
  build p = Normal {| queryString := toString params;
                      finalUrl := makeFinalUrl (baseUrlInput_value p)
                                    (toString params) |}.
Proof. unfold build. intros ->. reflexivity. Qed.

(** Without a key in the throwing case, [updateUrl] runs to its end. *)
Lemma build_completes p :
  existsb (throwsAt p)
    (JsSet.ofArray (FormData.keys (form_entries p))) = false ->
  exists r, build p = Normal r.
Proof.
  intros H. destruct (collectParams p) as [params|[]] eqn:E.
  - eexists. apply build_of_params. eassumption.
  - apply collectParams_throws in E. congruence.
Qed.

End LoopFacts.

(** ** One field *)

Section FieldClaims.

Lemma comma_pieces_sample :
  filter truthy (map trim (split 44%N (js "a, b ,,c")))
  = [js "a"; js "b"; js "c"].
Proof. reflexivity. Qed.

Lemma filter_truthy_all_empty (pieces : list jsstring) :
  Forall (fun piece => trim piece = []) pieces ->
  filter truthy (map trim pieces) = [].
Proof.
  induction 1 as [|piece pieces H _ IH]; simpl; [reflexivity|].
  rewrite H. simpl. assumption.
Qed.

(** The pieces kept of a comma-separated value are non-empty, hold no
    comma and neither start nor end with white space. *)
Lemma trimmed_pieces_clean (value piece : jsstring) :
  In piece (filter truthy (map trim (split 44%N value))) ->
  piece <> [] /\ ~ In 44%N piece
  /\ (forall c r, piece = c :: r -> isWhiteSpace c = false)
  /\ (forall r c, piece = r ++ [c] -> isWhiteSpace c = false).
Proof.
  intros H. apply filter_In in H as [H Ht].
  apply in_map_iff in H as [raw [E Hraw]]. subst piece.
  split; [apply truthy_nonempty; assumption|].
  split.
  - pose proof (split_no_sep 44%N value) as Hs.
    rewrite Forall_forall in Hs. specialize (Hs raw Hraw).
    destruct (trim_decompose raw) as [before [after [Er _]]].
    intros Hin. apply Hs. rewrite Er, !in_app_iff. tauto.
  - split; intros ? ? E; [eapply trim_first | eapply trim_last]; eassumption.
Qed.

(** C1: a field past the check-box rule (its control is not a check box)
    that carries [data-array="comma"] and has exactly one non-empty value:
    the value is split on ",", every piece trimmed, the pieces left empty
    dropped, and one pair (key, piece) appended per remaining piece, in
    split order.  "a, b ,,c" gives a, b, c; when every piece is dropped
    the parameters stay as they were. *)
Theorem C1_comma_separated key (e : HTMLElement) value params :
  dataset_array e = Some (js "comma") ->
  type e <> js "checkbox" ->
  value <> [] ->
  encodeField key (Some (Control e)) [value] params
  = Normal (params
              ++ pairs key (filter truthy (map trim (split 44%N value))))
  /\ (value = js "a, b ,,c" ->
      encodeField key (Some (Control e)) [value] params
      = Normal (params ++ [(key, js "a"); (key, js "b"); (key, js "c")]))
  /\ (Forall (fun piece => trim piece = []) (split 44%N value) ->
      encodeField key (Some (Control e)) [value] params = Normal params).
Proof.
  intros Hd Ht Hv.
  assert (E : encodeField key (Some (Control e)) [value] params
              = Normal (params ++ pairs key
                          (filter truthy (map trim (split 44%N value))))).
  { unfold encodeField. apply truthy_nonempty in Hv. rewrite Hv. simpl.
    apply str_eqb_neq in Ht. rewrite Ht, Hd. simpl.
    rewrite forEach_append. reflexivity. }
  split; [exact E|]. split.
  - intros ->. rewrite E, comma_pieces_sample. reflexivity.
  - intros H. rewrite E, (filter_truthy_all_empty H). simpl.
    rewrite app_nil_r. reflexivity.
Qed.

Lemma C1_comma_separated_witness :
  encodeField (js "keywords") (Some (Control textComma))
    [js "car, truck , "] []
  = Normal [(js "keywords", js "car"); (js "keywords", js "truck")].
Proof.
  apply (proj1 (@C1_comma_separated (js "keywords") textComma
                  (js "car, truck , ") [] eq_refl
                  ltac:(discriminate) ltac:(discriminate))).
Defined.

(** The check-box rule comes first: a check box that carries
    [data-array="comma"] is encoded as a check box and its value is not
    split. *)
Lemma checkbox_rule_first :
  dataset_array commaCheckbox = Some (js "comma")
  /\ encodeField (js "k") (Some (Control commaCheckbox)) [js "a, b ,,c"] []
     = Normal [(js "k", js "true")]
  /\ encodeField (js "k") (Some (Control commaCheckbox)) [js "a, b ,,c"] []
     <> Normal [(js "k", js "a"); (js "k", js "b"); (js "k", js "c")].
Proof. repeat split. discriminate. Qed.

(** C2: a check box with exactly one non-empty value gives the single pair
    (key, "true"), whatever the value is; a key with no value gives
    nothing, here and in the parameters [updateUrl] collects. *)
Theorem C2_checkbox key (e : HTMLElement) value params :
  type e = js "checkbox" ->
  value <> [] ->
  ~ In key (names params) ->
  encodeField key (Some (Control e)) [value] params
  = Normal (params ++ [(key, js "true")])
  /\ (forall element, encodeField key element [] params = Normal params)
  /\ (forall p collected,
        ~ In key (FormData.keys (form_entries p)) ->
        collectParams p = Normal collected ->
        ~ In key (names collected)).
Proof.
  intros Ht Hv Hk. split; [|split].
  - unfold encodeField. apply truthy_nonempty in Hv. rewrite Hv. simpl.
    rewrite Ht, str_eqb_refl. rewrite set_fresh by assumption. reflexivity.
  - reflexivity.
  - intros p collected Hp E Hin. apply Hp.
    eapply collectParams_names; eassumption.
Qed.

Lemma C2_checkbox_witness :
  encodeField (js "availability") (Some (Control checkbox)) [js "on"]
    [(js "sortBy", js "price_ascend")]
  = Normal [(js "sortBy", js "price_ascend"); (js "availability", js "true")].
Proof.
  apply (proj1 (@C2_checkbox (js "availability") checkbox (js "on")
                  [(js "sortBy", js "price_ascend")] eq_refl
                  ltac:(discriminate)
                  ltac:(simpl; intros [H|[]]; discriminate H))).
Defined.

(** C3: with more than one value, one pair (key, v) per non-empty v, in
    the order of the values, the empty ones dropped; the values a, empty,
    b give a, b. *)
Theorem C3_multi_value key element (allValues : list jsstring) params :
  2 <= List.length allValues ->
  encodeField key element allValues params
  = Normal (params ++ pairs key (filter truthy allValues))
  /\ (allValues = [js "a"; []; js "b"] ->
      encodeField key element allValues params
      = Normal (params ++ [(key, js "a"); (key, js "b")])).
Proof.
  intros Hlen.
  assert (E : encodeField key element allValues params
              = Normal (params ++ pairs key (filter truthy allValues))).
  { destruct allValues as [|v [|v' rest]]; simpl in Hlen; try lia.
    unfold encodeField. rewrite forEach_append_truthy. reflexivity. }
  split; [exact E|]. intros H. rewrite E, H. reflexivity.
Qed.

Lemma C3_multi_value_witness :
  encodeField (js "itemCondition") (Some conditionGroup)
    [js "new"; js "used"] []
  = Normal [(js "itemCondition", js "new"); (js "itemCondition", js "used")].
Proof.
  apply (proj1 (@C3_multi_value (js "itemCondition") (Some conditionGroup)
                  [js "new"; js "used"] [] (le_n 2))).
Defined.

(** A single empty value gives nothing, whatever the control. *)
Lemma encodeField_single_empty key element params :
  encodeField key element [[]] params = Normal params.
Proof. reflexivity. Qed.

(** X12: a single non-empty value of a lone control that is neither a
    check box nor comma-separated, or of a key without a control, gives
    the pair (key, value). *)
Lemma encodeField_single_plain key element value params :
  value <> [] ->
  ~ In key (names params) ->
  match element with
  | None => True
  | Some (Control e) =>
      type e <> js "checkbox" /\ dataset_array e <> Some (js "comma")
  | Some (RadioNodeList _) => False
  end ->
  encodeField key element [value] params = Normal (params ++ [(key, value)]).
Proof.
  intros Hv Hk He. unfold encodeField.
  apply truthy_nonempty in Hv. rewrite Hv. simpl.
  destruct element as [[e|members]|]; simpl; try contradiction.
  - destruct He as [Ht Hd]. apply str_eqb_neq in Ht. rewrite Ht.
    destruct (dataset_array e) as [array|]; simpl.
    + destruct (str_eqb array (js "comma")) eqn:Ea.
      * apply str_eqb_eq in Ea. congruence.
      * rewrite set_fresh by assumption. reflexivity.
    + rewrite set_fresh by assumption. reflexivity.
  - rewrite set_fresh by assumption. reflexivity.
Qed.

(** C4 at a group of check boxes with one box checked: the single value is
    not emitted, the iteration throws. *)
Theorem C4_single_value_of_group :
  encodeField (js "itemCondition") (Some conditionGroup) [js "new"] []
  = Throw TypeError
  /\ encodeField (js "itemCondition") (Some conditionGroup) [js "new"] []
     <> Normal [(js "itemCondition", js "new")].
Proof. split; [reflexivity | discriminate]. Qed.

End FieldClaims.

(** ** The whole function *)

Section BuildClaims.

(** C5 (amended): the query string is the parameters' [name=value] strings
    joined with "&", names and values in the form encoding: the bytes of
    the UTF-8 encoding, space as "+", ASCII letters, digits and [* - . _]
    kept, every other byte as %HH; no parameters give the empty string. *)
Theorem C5_query_string p params :
  collectParams p = Normal params ->
  exists r,
    build p = Normal r
    /\ queryString r
       = join [0x26%N]
           (map (fun tuple =>
                   flat_map formByte (utf8Encode (fst tuple))
                   ++ [0x3D%N]
                   ++ flat_map formByte (utf8Encode (snd tuple)))
              params)
    /\ (params = [] -> queryString r = []).
Proof.
  intros E. eexists. split; [apply build_of_params; exact E|].
  simpl. split.
  - rewrite toString_join. f_equal. apply map_ext. intros tuple.
    unfold tupleString. rewrite !urlencode_form. reflexivity.
  - intros ->. reflexivity.
Qed.

Lemma C5_query_string_witness :
  exists r,
    build sampleSearch = Normal r
    /\ queryString r
       = js "sortBy=price_ascend&itemCondition=new&itemCondition=used"
         ++ js "&keywords=car&keywords=truck&availability=true".
Proof.
  destruct (@C5_query_string sampleSearch
              [(js "sortBy", js "price_ascend");
               (js "itemCondition", js "new");
               (js "itemCondition", js "used");
               (js "keywords", js "car");
               (js "keywords", js "truck");
               (js "availability", js "true")] eq_refl)
    as [r [Hb [Hq _]]].
  exists r. split; [exact Hb|]. rewrite Hq. reflexivity.
Defined.

(** C5 as stated fails on a value with a space: the component encoding
    writes %20, the code writes "+". *)
Lemma C5_counterexample :
  collectParams spacedKeyword = Normal [(js "keywords", js "red car")]
  /\ build spacedKeyword
     = Normal {| queryString := js "keywords=red+car";
                 finalUrl := marketplace ++ js "/?keywords=red+car" |}
  /\ ComponentEncoding.serialize [(js "keywords", js "red car")]
     = js "keywords=red%20car"
  /\ toString [(js "keywords", js "red car")]
     <> ComponentEncoding.serialize [(js "keywords", js "red car")].
Proof. repeat split. discriminate. Qed.

Lemma makeFinalUrl_spec (baseUrl paramString : jsstring) :
  exists normalized,
    ((exists front, baseUrl = front ++ js "/") -> normalized = baseUrl)
    /\ (~ (exists front, baseUrl = front ++ js "/") ->
        normalized = baseUrl ++ js "/")
    /\ (paramString <> [] ->
        makeFinalUrl baseUrl paramString
        = normalized ++ js "?" ++ paramString)
    /\ (paramString = [] -> makeFinalUrl baseUrl paramString = normalized).
Proof.
  unfold makeFinalUrl.
  destruct (endsWith baseUrl (js "/")) eqn:E; simpl.
  - exists baseUrl. apply endsWith_spec in E.
    repeat split; auto; try tauto.
    + intros H. apply truthy_nonempty in H. rewrite H. reflexivity.
    + intros ->. simpl. apply app_nil_r.
  - exists (baseUrl ++ js "/").
    assert (~ (exists front, baseUrl = front ++ js "/")).
    { intros H. apply endsWith_spec in H. congruence. }
    repeat split; auto; try tauto.
    + intros H0. apply truthy_nonempty in H0. rewrite H0. reflexivity.
    + intros ->. simpl. apply app_nil_r.
Qed.

(** On every input whose loop completes: the base URL gets a "/"
    appended exactly when it does not end with one; the final URL is the
    normalized base URL, followed by "?" and the query string when that
    is non-empty.  No entries and the base URL "https://x.com/" give the
    empty query string and the final URL "https://x.com/". *)
Lemma final_url_of_collected p params :
  collectParams p = Normal params ->
  exists r normalized,
    build p = Normal r
    /\ queryString r = toString params
    /\ ((exists front, baseUrlInput_value p = front ++ js "/") ->
        normalized = baseUrlInput_value p)
    /\ (~ (exists front, baseUrlInput_value p = front ++ js "/") ->
        normalized = baseUrlInput_value p ++ js "/")
    /\ (queryString r <> [] ->
        finalUrl r = normalized ++ js "?" ++ queryString r)
    /\ (queryString r = [] -> finalUrl r = normalized)
    /\ (form_entries p = [] ->
        baseUrlInput_value p = js "https://x.com/" ->
        queryString r = [] /\ finalUrl r = js "https://x.com/").
Proof.
  intros E.
  destruct (makeFinalUrl_spec (baseUrlInput_value p) (toString params))
    as [normalized [H1 [H2 [H3 H4]]]].
  eexists; exists normalized. split; [apply build_of_params; exact E|].
  simpl. split; [reflexivity|]. do 4 (split; [assumption|]).
  intros He Hb. unfold collectParams in E. rewrite He in E. simpl in E.
  apply Normal_inj in E. subst params. rewrite Hb. split; reflexivity.
Qed.

(** C6 at the form with exactly one item-condition box checked: the loop
    throws before the query string and the final URL are made, so no
    final URL is returned where the claim has the base URL with its "/"
    and "?itemCondition=new".  On every input whose loop completes the
    final URL is as the claim says. *)
Theorem C6_final_url :
  build oneConditionChecked = Throw TypeError
  /\ build oneConditionChecked
     <> Normal {| queryString := js "itemCondition=new";
                  finalUrl := marketplace ++ js "/?itemCondition=new" |}
  /\ (forall p params,
        collectParams p = Normal params ->
        exists r normalized,
          build p = Normal r
          /\ queryString r = toString params
          /\ ((exists front, baseUrlInput_value p = front ++ js "/") ->
              normalized = baseUrlInput_value p)
          /\ (~ (exists front, baseUrlInput_value p = front ++ js "/") ->
              normalized = baseUrlInput_value p ++ js "/")
          /\ (queryString r <> [] ->
              finalUrl r = normalized ++ js "?" ++ queryString r)
          /\ (queryString r = [] -> finalUrl r = normalized)).
Proof.
  split; [reflexivity|]. split; [discriminate|].
  intros p params E.
  destruct (final_url_of_collected p E)
    as [r [normalized [Hb [Hq [H1 [H2 [H3 [H4 _]]]]]]]].
  exists r, normalized. auto 10.
Qed.

Lemma build_depends_on p1 p2 :
  form_entries p1 = form_entries p2 ->
  (forall key, In key (FormData.keys (form_entries p1)) ->
               form_elements p1 key = form_elements p2 key) ->
  baseUrlInput_value p1 = baseUrlInput_value p2 ->
  build p1 = build p2.
Proof.
  intros He Hel Hb. unfold build, collectParams.
  rewrite <- He, <- Hb.
  rewrite (@forOf_ext _ _ (JsSet.ofArray (FormData.keys (form_entries p1)))
             (fun key params =>
                encodeField key (form_elements p1 key)
                  (FormData.getAll (form_entries p1) key) params)
             (fun key params =>
                encodeField key (form_elements p2 key)
                  (FormData.getAll (form_entries p1) key) params)).
  - reflexivity.
  - intros key Hk params. rewrite Hel; [reflexivity|].
    apply ofArray_In. assumption.
Qed.

(** C8 at a form whose item-condition group has exactly one box checked:
    [updateUrl] throws a TypeError and the page keeps its old URL. *)
Theorem C8_one_condition_checked_throws :
  build oneConditionChecked = Throw TypeError
  /\ updateUrl oneConditionChecked = Throw TypeError
  /\ throwsAt oneConditionChecked (js "itemCondition") = true.
Proof. repeat split. Qed.

(** C9: every parameter [updateUrl] collects has a non-empty value. *)
Theorem C9_values_nonempty p params :
  collectParams p = Normal params ->
  Forall (fun tuple => snd tuple <> []) params.
Proof.
  unfold collectParams. intros E.
  refine (forOf_invariant
            (fun _ s => Forall (fun tuple => snd tuple <> []) s)
            _ _ _ [] [] _ E).
  - intros done key s s' Hs Hk. eapply encodeField_values; eassumption.
  - constructor.
Qed.

Lemma C9_values_nonempty_witness :
  Forall (fun tuple : jsstring * jsstring => snd tuple <> [])
    [(js "sortBy", js "price_ascend");
     (js "itemCondition", js "new");
     (js "itemCondition", js "used");
     (js "keywords", js "car");
     (js "keywords", js "truck");
     (js "availability", js "true")].
Proof.
  apply (@C9_values_nonempty sampleSearch _ eq_refl).
Defined.



End BuildClaims.

(** ** The specification's examples *)

Section Examples.

Example split_sample :
  split 44%N (js "a, b ,,c") = [js "a"; js " b "; []; js "c"].
Proof. reflexivity. Qed.

Example trim_sample : trim (js "  b c ") = js "b c".
Proof. reflexivity. Qed.

Example base_without_slash :
  makeFinalUrl (js "https://x.com/market") [] = js "https://x.com/market/".
Proof. reflexivity. Qed.

Example base_with_slash :
  makeFinalUrl (js "https://x.com/market/") [] = js "https://x.com/market/".
Proof. reflexivity. Qed.

Example end_to_end :
  collectParams sampleSearch
  = Normal [(js "sortBy", js "price_ascend");
            (js "itemCondition", js "new");
            (js "itemCondition", js "used");
            (js "keywords", js "car");
            (js "keywords", js "truck");
            (js "availability", js "true")].
Proof. reflexivity. Qed.

(** No entries and a base URL that ends with its slash. *)
Example empty_form_sample :
  build emptyForm
  = Normal {| queryString := []; finalUrl := js "https://x.com/" |}.
Proof. reflexivity. Qed.

(** A base URL without its slash and a form with parameters: the slash is
    added and "?" goes before the query string. *)
Example final_url_sample :
  build sampleSearch
  = Normal
      {| queryString :=
           js "sortBy=price_ascend&itemCondition=new&itemCondition=used"
           ++ js "&keywords=car&keywords=truck&availability=true";
         finalUrl :=
           js "https://x.com/market/?sortBy=price_ascend&itemCondition=new"
           ++ js "&itemCondition=used&keywords=car&keywords=truck"
           ++ js "&availability=true" |}.
Proof. reflexivity. Qed.

(** Non-ASCII and reserved characters in a value: U+00E9, "&", "~". *)
Example serializer_sample :
  toString [(js "q", [0xE9; 0x26; 0x7E]%N)] = js "q=%C3%A9%26%7E".
Proof. reflexivity. Qed.

End Examples.

(** * Further properties of [updateUrl] *)

Section CollectFacts.

(** When the key names no parameter yet, an iteration leaves what was
    collected in place and puts its own pairs after it. *)
Lemma encodeField_frame key element allValues params :
  ~ In key (names params) ->
  encodeField key element allValues params
  = match encodeField key element allValues [] with
    | Normal l => Normal (params ++ l)
    | Throw e => Throw e
    end.
Proof.
  intros Hk. unfold encodeField.
  destruct allValues as [|value [|value' rest]].
  - rewrite app_nil_r. reflexivity.
  - destruct (truthy value); simpl; [|rewrite app_nil_r; reflexivity].
    destruct element as [item|]; simpl.
    + destruct (strictEq (item_type item) (js "checkbox")).
      * rewrite set_fresh by assumption. reflexivity.
      * destruct (item_dataset item) as [array|]; [|reflexivity].
        destruct (strictEq array (js "comma")).
        -- rewrite !forEach_append. reflexivity.
        -- rewrite set_fresh by assumption. reflexivity.
    + rewrite set_fresh by assumption. reflexivity.
  - rewrite !forEach_append_truthy. reflexivity.
Qed.

Lemma fieldPairs_names p key n :
  In n (names (fieldPairs p key)) -> n = key.
Proof.
  unfold fieldPairs.
  destruct (encodeField key (form_elements p key)
              (FormData.getAll (form_entries p) key) []) as [l|e] eqn:E.
  - intros H. destruct (encodeField_names _ _ _ _ E n H) as [[]|]; auto.
  - intros [].
Qed.

Lemma collect_from p (keys : list jsstring) params params' :
  NoDup keys ->
  (forall k, In k keys -> ~ In k (names params)) ->
  forOf keys
    (fun key params =>
       encodeField key (form_elements p key)
         (FormData.getAll (form_entries p) key) params) params
  = Normal params' ->
  params' = params ++ flat_map (fieldPairs p) keys.
Proof.
  revert params. induction keys as [|k keys IH]; intros params Hnd Hfresh E.
  - simpl in *. apply Normal_inj in E. rewrite app_nil_r. auto.
  - simpl in E.
    rewrite encodeField_frame in E by (apply Hfresh; left; reflexivity).
    assert (Hp : fieldPairs p k
                 = match encodeField k (form_elements p k)
                           (FormData.getAll (form_entries p) k) [] with
                   | Normal l => l
                   | Throw _ => []
                   end) by reflexivity.
    destruct (encodeField k (form_elements p k)
                (FormData.getAll (form_entries p) k) []) as [l|e];
      simpl in E; [|discriminate].
    rewrite <- Hp in E. clear Hp.
    apply NoDup_cons_iff in Hnd as [Hk Hnd'].
    apply IH in E; auto.
    + simpl. rewrite app_assoc. exact E.
    + intros k' Hk' Hin. unfold names in Hin.
      rewrite map_app, in_app_iff in Hin. destruct Hin as [Hin|Hin].
      * apply (Hfresh k'); [right; assumption | exact Hin].
      * apply fieldPairs_names in Hin. subst k'. contradiction.
Qed.

Lemma has_app (a b : list jsstring) x :
  JsSet.has (a ++ b) x = JsSet.has a x || JsSet.has b x.
Proof. unfold JsSet.has. apply existsb_app. Qed.

Lemma add_app (a b : list jsstring) x :
  JsSet.add (a ++ b) x
  = if JsSet.has a x then a ++ b else a ++ JsSet.add b x.
Proof.
  unfold JsSet.add. rewrite has_app.
  destruct (JsSet.has a x); simpl; [reflexivity|].
  destruct (JsSet.has b x); [reflexivity | symmetry; apply app_assoc].
Qed.

(** The keys are visited in the order of their first entry. *)
Lemma ofArray_from_filter (l acc : list jsstring) :
  fold_left JsSet.add l acc
  = acc ++ fold_left JsSet.add
             (filter (fun y => negb (JsSet.has acc y)) l) [].
Proof.
  revert acc. induction l as [|x l IH] using rev_ind; intros acc.
  - simpl. rewrite app_nil_r. reflexivity.
  - rewrite fold_left_app, filter_app, fold_left_app. simpl.
    rewrite IH, add_app.
    destruct (JsSet.has acc x); reflexivity.
Qed.

Lemma ofArray_cons (x : jsstring) (l : list jsstring) :
  JsSet.ofArray (x :: l)
  = x :: JsSet.ofArray (filter (fun y => negb (str_eqb y x)) l).
Proof.
  unfold JsSet.ofArray. simpl. unfold JsSet.add at 2. simpl.
  rewrite ofArray_from_filter. simpl. do 2 f_equal.
  apply filter_ext. intros y. unfold JsSet.has. simpl.
  rewrite orb_false_r. reflexivity.
Qed.

(** X1: the parameters collected are the pairs of each key, key after key
    in the order of the keys' first entries, each key once: an entry met
    later for a key already seen goes with that key's pairs. *)
Theorem collect_by_key p params :
  collectParams p = Normal params ->
  params
  = flat_map (fieldPairs p) (JsSet.ofArray (FormData.keys (form_entries p)))
  /\ NoDup (JsSet.ofArray (FormData.keys (form_entries p)))
  /\ (forall key rest,
        FormData.keys (form_entries p) = key :: rest ->
        JsSet.ofArray (FormData.keys (form_entries p))
        = key :: JsSet.ofArray
                   (filter (fun y => negb (str_eqb y key)) rest)).
Proof.
  intros E. split; [|split].
  - unfold collectParams in E.
    apply collect_from in E; auto using ofArray_NoDup.
  - apply ofArray_NoDup.
  - intros key rest ->. apply ofArray_cons.
Qed.

Lemma collect_by_key_witness :
  collectParams
    (pageOf [(js "itemCondition", js "new");
             (js "sortBy", js "price_ascend");
             (js "itemCondition", js "used")] [])
  = Normal [(js "itemCondition", js "new");
            (js "itemCondition", js "used");
            (js "sortBy", js "price_ascend")]
  /\ [(js "itemCondition", js "new");
      (js "itemCondition", js "used");
      (js "sortBy", js "price_ascend")]
     = flat_map
         (fieldPairs
            (pageOf [(js "itemCondition", js "new");
                     (js "sortBy", js "price_ascend");
                     (js "itemCondition", js "used")] []))
         [js "itemCondition"; js "sortBy"].
Proof.
  split; [reflexivity|].
  apply (proj1 (@collect_by_key
                  (pageOf [(js "itemCondition", js "new");
                           (js "sortBy", js "price_ascend");
                           (js "itemCondition", js "used")] [])
                  _ eq_refl)).
Defined.


Lemma getAll_all_empty (entries : FormData.t) key :
  Forall (fun entry => snd entry = []) entries ->
  Forall (fun v => v = []) (FormData.getAll entries key).
Proof.
  unfold FormData.getAll. intros H.
  rewrite Forall_map. rewrite Forall_forall in *.
  intros x Hx. apply filter_In in Hx. apply H; tauto.
Qed.

Lemma encodeField_all_empty key element allValues params :
  Forall (fun v => v = []) allValues ->
  encodeField key element allValues params = Normal params.
Proof.
  intros H. unfold encodeField.
  destruct allValues as [|value [|value' rest]]; [reflexivity| |].
  - inversion H; subst. reflexivity.
  - rewrite forEach_append_truthy.
    replace (filter truthy (value :: value' :: rest)) with (@nil jsstring).
    + simpl. rewrite app_nil_r. reflexivity.
    + symmetry. induction H as [|v l Hv _ IH]; [reflexivity|].
      simpl. rewrite Hv. simpl. exact IH.
Qed.

(** X3: a form in which every entry has the empty value gives no
    parameter, whatever its controls are: [updateUrl] completes, the
    query string is empty and the final URL is the base URL with its
    trailing "/" and no "?". *)
Theorem blank_form p :
  Forall (fun entry => snd entry = []) (form_entries p) ->
  collectParams p = Normal []
  /\ build p
     = Normal {| queryString := [];
                 finalUrl := makeFinalUrl (baseUrlInput_value p) [] |}
  /\ exists front,
       makeFinalUrl (baseUrlInput_value p) [] = front ++ js "/"
       /\ (front ++ js "/" = baseUrlInput_value p
           \/ front = baseUrlInput_value p).
Proof.
  intros H.
  assert (E : collectParams p = Normal []).
  { unfold collectParams.
    generalize (JsSet.ofArray (FormData.keys (form_entries p))).
    intros keys. induction keys as [|k keys IH]; [reflexivity|].
    simpl. rewrite encodeField_all_empty by (apply getAll_all_empty, H).
    exact IH. }
  split; [exact E|]. split; [apply build_of_params in E; exact E|].
  unfold makeFinalUrl. simpl.
  destruct (endsWith (baseUrlInput_value p) (js "/")) eqn:Ee; simpl.
  - apply endsWith_spec in Ee as [front Ef]. exists front.
    rewrite app_nil_r. rewrite <- Ef. auto.
  - exists (baseUrlInput_value p). rewrite app_nil_r. auto.
Qed.

Lemma blank_form_witness :
  build (pageOf [(js "sortBy", []); (js "itemCondition", [])] marketplace)
  = Normal {| queryString := [];
              finalUrl := marketplace ++ js "/" |}.
Proof.
  apply (proj1 (proj2 (@blank_form
                         (pageOf [(js "sortBy", []); (js "itemCondition", [])]
                            marketplace)
                         ltac:(repeat constructor)))).
Defined.

End CollectFacts.

(** * The query string as text *)

Section EncoderFacts.

Lemma below_check (bound : nat) (P : N -> Prop) (check : N -> bool) :
  (forall b, check b = true -> P b) ->
  forallb (fun n => check (N.of_nat n)) (seq 0 bound) = true ->
  forall b, (b < N.of_nat bound)%N -> P b.
Proof.
  intros Hc Hall b Hb. apply Hc.
  rewrite forallb_forall in Hall.
  rewrite <- (N2Nat.id b). apply Hall. apply in_seq. lia.
Qed.

(** The three shapes of an encoded byte. *)
Lemma formByte_shape (b : N) :
  (b < 256)%N ->
  (b = 0x20%N /\ formByte b = [0x2B%N])
  \/ (formByte b = [b] /\ b <> 0x2B%N /\ b <> 0x25%N /\ keptByte b = true)
  \/ (exists h1 h2,
        formByte b = [0x25%N; h1; h2]
        /\ FormDecoding.isHexDigit h1 = true
        /\ FormDecoding.isHexDigit h2 = true
        /\ (FormDecoding.hexValue h1 * 16 + FormDecoding.hexValue h2)%N = b
        /\ keptByte h1 = true /\ keptByte h2 = true).
Proof.
  revert b.
  apply (@below_check 256 _
           (fun b =>
              match formByte b with
              | [c] =>
                  if (c =? 0x2B)%N then (b =? 0x20)%N
                  else (c =? b)%N && negb (c =? 0x25)%N && keptByte c
              | [c; h1; h2] =>
                  (c =? 0x25)%N
                  && FormDecoding.isHexDigit h1 && FormDecoding.isHexDigit h2
                  && (FormDecoding.hexValue h1 * 16
                      + FormDecoding.hexValue h2 =? b)%N
                  && keptByte h1 && keptByte h2
              | _ => false
              end)).
  - intros b. destruct (formByte b) as [|c [|h1 [|h2 [|? ?]]]];
      try discriminate.
    + destruct (c =? 43)%N eqn:Ec.
      * intros Hb. left. apply N.eqb_eq in Ec, Hb. subst. auto.
      * intros H. right; left.
        apply andb_true_iff in H as [H Hk].
        apply andb_true_iff in H as [Hcb Hp].
        apply N.eqb_eq in Hcb. subst c. apply N.eqb_neq in Ec.
        apply negb_true_iff, N.eqb_neq in Hp. auto.
    + intros H. right; right. exists h1, h2.
      repeat (apply andb_true_iff in H as [H ?]).
      apply N.eqb_eq in H. subst c.
      match goal with E : (_ =? b)%N = true |- _ => apply N.eqb_eq in E end.
      auto 10.
  - vm_compute. reflexivity.
Qed.

Lemma keptByte_not_special (c : N) :
  keptByte c = true ->
  c <> 0x2B%N /\ c <> 0x25%N /\ c <> 0x3D%N /\ c <> 0x26%N.
Proof.
  intros H. repeat split; intros ->; vm_compute in H; discriminate.
Qed.

(** An encoded byte is made of kept bytes, "+" and "%". *)
Lemma formByte_alphabet (b : N) :
  (b < 256)%N ->
  Forall (fun c => keptByte c || among c [0x2B; 0x25]%N = true) (formByte b).
Proof.
  intros Hb.
  destruct (formByte_shape Hb)
    as [[_ E]|[[E [_ [_ Hk]]]|[h1 [h2 [E [_ [_ [_ [H1 H2]]]]]]]]];
    rewrite E; repeat constructor;
    try (rewrite Hk || rewrite H1 || rewrite H2); reflexivity.
Qed.

Lemma plusToSpace_other (c : N) :
  c <> 0x2B%N -> FormDecoding.plusToSpace c = c.
Proof.
  intros H. unfold FormDecoding.plusToSpace.
  apply N.eqb_neq in H. rewrite H. reflexivity.
Qed.

Lemma percentDecode_plain (c : N) (rest : list N) :
  c <> 0x25%N ->
  FormDecoding.percentDecode (c :: rest)
  = c :: FormDecoding.percentDecode rest.
Proof.
  intros H. apply N.eqb_neq in H. simpl. rewrite H. reflexivity.
Qed.

Lemma percentDecode_escape (h1 h2 : N) (rest : list N) :
  FormDecoding.isHexDigit h1 = true ->
  FormDecoding.isHexDigit h2 = true ->
  FormDecoding.percentDecode (0x25%N :: h1 :: h2 :: rest)
  = (FormDecoding.hexValue h1 * 16 + FormDecoding.hexValue h2)%N
      :: FormDecoding.percentDecode rest.
Proof. intros H1 H2. simpl. rewrite H1, H2. reflexivity. Qed.

(** Decoding undoes the encoding of a byte. *)
Lemma decode_formByte (b : N) (rest : list N) :
  (b < 256)%N ->
  FormDecoding.decodeComponent (formByte b ++ rest)
  = b :: FormDecoding.decodeComponent rest.
Proof.
  intros Hb. unfold FormDecoding.decodeComponent.
  destruct (formByte_shape Hb)
    as [[-> E]|[[E [Hplus [Hpct _]]]|[h1 [h2 [E [X1 [X2 [V [K1 K2]]]]]]]]];
    rewrite E.
  - reflexivity.
  - change (map FormDecoding.plusToSpace ([b] ++ rest))
      with (FormDecoding.plusToSpace b
              :: map FormDecoding.plusToSpace rest).
    rewrite plusToSpace_other by assumption.
    apply percentDecode_plain; assumption.
  - apply keptByte_not_special in K1 as [P1 _], K2 as [P2 _].
    change (map FormDecoding.plusToSpace ([37%N; h1; h2] ++ rest))
      with (37%N :: FormDecoding.plusToSpace h1
              :: FormDecoding.plusToSpace h2
              :: map FormDecoding.plusToSpace rest).
    rewrite !plusToSpace_other by assumption.
    rewrite percentDecode_escape by assumption. rewrite V. reflexivity.
Qed.

Lemma decode_encoded (bytes : list N) :
  Forall (fun b => (b < 256)%N) bytes ->
  FormDecoding.decodeComponent (flat_map formByte bytes) = bytes.
Proof.
  induction 1 as [|b bytes Hb _ IH]; [reflexivity|].
  simpl. rewrite decode_formByte by assumption. rewrite IH. reflexivity.
Qed.

Lemma encoded_alphabet (bytes : list N) :
  Forall (fun b => (b < 256)%N) bytes ->
  Forall (fun c => keptByte c || among c [0x2B; 0x25]%N = true)
    (flat_map formByte bytes).
Proof.
  induction 1 as [|b bytes Hb _ IH]; simpl; [constructor|].
  apply Forall_app. split; [apply formByte_alphabet; assumption | exact IH].
Qed.

(** *** The bytes of UTF-8 *)

Lemma lead_byte_bound (y : N) :
  (y < 128)%N ->
  (N.lor 0x80 y < 256 /\ N.lor 0xC0 y < 256
   /\ N.lor 0xE0 y < 256 /\ N.lor 0xF0 y < 256)%N.
Proof.
  revert y.
  apply (@below_check 128 _
           (fun y => (N.lor 0x80 y <? 256)%N && (N.lor 0xC0 y <? 256)%N
                     && (N.lor 0xE0 y <? 256)%N && (N.lor 0xF0 y <? 256)%N)).
  - intros y H. repeat (apply andb_true_iff in H as [H ?]).
    repeat split; apply N.ltb_lt; assumption.
  - vm_compute. reflexivity.
Qed.

Lemma continuationByte_bound (cp shift : N) :
  (continuationByte cp shift < 256)%N.
Proof.
  unfold continuationByte. apply lead_byte_bound.
  change 63%N with (N.ones 6). rewrite N.land_ones.
  pose proof (N.mod_upper_bound (N.shiftr cp shift) (2 ^ 6)) as H.
  change (2 ^ 6)%N with 64%N in *. lia.
Qed.

Lemma shiftr_bound (cp k q : N) :
  (cp < 2 ^ k * q)%N -> (N.shiftr cp k < q)%N.
Proof.
  intros H. rewrite N.shiftr_div_pow2.
  apply N.Div0.div_lt_upper_bound. exact H.
Qed.

Lemma utf8EncodeCodePoint_bytes (cp : N) :
  (cp <= 0x10FFFF)%N ->
  Forall (fun b => (b < 256)%N) (utf8EncodeCodePoint cp).
Proof.
  intros Hcp. unfold utf8EncodeCodePoint.
  destruct (N.leb_spec cp 127); [repeat constructor; lia|].
  destruct (N.leb_spec cp 2047).
  { repeat constructor; [|apply continuationByte_bound].
    apply lead_byte_bound.
    assert (N.shiftr cp 6 < 32)%N by (apply shiftr_bound; simpl; lia). lia. }
  destruct (N.leb_spec cp 65535).
  { repeat constructor; try apply continuationByte_bound.
    apply lead_byte_bound.
    assert (N.shiftr cp 12 < 16)%N by (apply shiftr_bound; simpl; lia). lia. }
  repeat constructor; try apply continuationByte_bound.
  apply lead_byte_bound.
  assert (N.shiftr cp 18 < 8)%N by (apply shiftr_bound; simpl; lia). lia.
Qed.

Lemma scalarValues_bound_upto (n : nat) (s : jsstring) :
  List.length s <= n ->
  wfString s ->
  Forall (fun cp => (cp <= 0x10FFFF)%N) (scalarValues s).
Proof.
  revert s. induction n as [|n IH]; intros s Hlen Hwf.
  - destruct s; [constructor | simpl in Hlen; lia].
  - destruct s as [|c rest]; [constructor|].
    inversion Hwf as [|? ? Hc Hrest]; subst.
    assert (IHrest : Forall (fun cp => (cp <= 0x10FFFF)%N)
                       (scalarValues rest))
      by (apply IH; [simpl in Hlen; lia | assumption]).
    cbn [scalarValues]. unfold isLeadSurrogate, isTrailSurrogate.
    destruct ((55296 <=? c) && (c <=? 56319))%N eqn:Hlead.
    + destruct rest as [|d rest']; [repeat constructor; lia|].
      destruct ((56320 <=? d) && (d <=? 57343))%N eqn:Htrail.
      * apply andb_true_iff in Hlead as [L1 L2].
        apply andb_true_iff in Htrail as [T1 T2].
        apply N.leb_le in L1, L2, T1, T2.
        constructor; [lia|].
        apply IH; [simpl in Hlen; lia|].
        inversion Hrest; assumption.
      * constructor; [lia | exact IHrest].
    + destruct ((56320 <=? c) && (c <=? 57343))%N;
        constructor; try lia; exact IHrest.
Qed.

(** The UTF-8 encoding of a string is made of bytes. *)
Lemma utf8Encode_bytes (s : jsstring) :
  wfString s -> Forall (fun b => (b < 256)%N) (utf8Encode s).
Proof.
  intros H. unfold utf8Encode.
  pose proof (scalarValues_bound_upto (le_n (List.length s)) H) as Hb.
  induction Hb as [|cp cps Hcp _ IH]; simpl; [constructor|].
  apply Forall_app. split; [apply utf8EncodeCodePoint_bytes|]; assumption.
Qed.

End EncoderFacts.

(** The computation completed with the state on the left of [E]. *)
Ltac returned E :=
  apply Normal_inj in E;
  match type of E with _ = ?x => subst x end.

Section QueryStringFacts.

Lemma wf_trim (s : jsstring) : wfString s -> wfString (trim s).
Proof.
  unfold wfString. intros H.
  destruct (trim_decompose s) as [before [after [E _]]].
  rewrite E in H. apply Forall_app in H as [_ H].
  apply Forall_app in H as [H _]. exact H.
Qed.

Lemma wf_split sep (s : jsstring) :
  wfString s -> Forall wfString (split sep s).
Proof.
  unfold wfString. induction 1 as [|c s Hc Hs IH]; simpl.
  - repeat constructor.
  - destruct (N.eqb c sep).
    + constructor; [constructor | exact IH].
    + destruct (split sep s) as [|q qs]; [repeat constructor; assumption|].
      inversion IH; subst. constructor; [constructor|]; assumption.
Qed.

Lemma wf_pairs key (values : list jsstring) :
  wfString key -> Forall wfString values -> wfPairs (pairs key values).
Proof.
  intros Hk Hv. unfold wfPairs, pairs. rewrite Forall_map. simpl.
  eapply Forall_impl; [|exact Hv]. simpl. auto.
Qed.

Lemma wf_filter (f : jsstring -> bool) (l : list jsstring) :
  Forall wfString l -> Forall wfString (filter f l).
Proof.
  rewrite !Forall_forall. intros H x Hx. apply filter_In in Hx.
  apply H; tauto.
Qed.

Lemma wf_true : wfString (js "true").
Proof. repeat constructor. Qed.

(** An iteration keeps the collected strings well formed. *)
Lemma encodeField_wf key element allValues params params' :
  wfString key -> Forall wfString allValues -> wfPairs params ->
  encodeField key element allValues params = Normal params' ->
  wfPairs params'.
Proof.
  intros Hk Hv Hp E. unfold encodeField in E.
  assert (Hset : forall v, wfString v -> wfPairs (set params key v)).
  { intros v Hw. apply Forall_set; [exact Hp | split; assumption]. }
  assert (Happ : forall vs, Forall wfString vs ->
                            wfPairs (params ++ pairs key vs)).
  { intros vs Hw. apply Forall_app. split; [exact Hp|].
    apply wf_pairs; assumption. }
  destruct allValues as [|value [|value' rest]].
  - returned E. exact Hp.
  - inversion Hv as [|? ? Hval _]; subst.
    destruct (truthy value); simpl in E; [|returned E; exact Hp].
    destruct element as [item|].
    + destruct (strictEq (item_type item) (js "checkbox"));
        [returned E; apply Hset, wf_true|].
      destruct (item_dataset item) as [array|]; [|discriminate].
      destruct (strictEq array (js "comma")).
      * rewrite forEach_append in E. returned E.
        apply Happ, wf_filter. rewrite Forall_map.
        eapply Forall_impl; [|apply wf_split; exact Hval].
        exact wf_trim.
      * returned E. apply Hset, Hval.
    + returned E. apply Hset, Hval.
  - rewrite forEach_append_truthy in E. returned E.
    apply Happ, wf_filter, Hv.
Qed.

Lemma collect_wf_from p (keys : list jsstring) params params' :
  wfPairs (form_entries p) ->
  Forall wfString keys ->
  wfPairs params ->
  forOf keys
    (fun key params =>
       encodeField key (form_elements p key)
         (FormData.getAll (form_entries p) key) params) params
  = Normal params' ->
  wfPairs params'.
Proof.
  intros He Hk. revert params.
  induction Hk as [|k keys Hwk _ IH]; intros params Hp E; simpl in E.
  - returned E. exact Hp.
  - destruct (encodeField k (form_elements p k)
                (FormData.getAll (form_entries p) k) params)
      as [p1|e] eqn:E1; simpl in E; [|discriminate].
    apply (IH p1); [|exact E].
    eapply encodeField_wf; [exact Hwk| |exact Hp|exact E1].
    unfold FormData.getAll. rewrite Forall_map.
    unfold wfPairs in He. rewrite Forall_forall in *.
    intros x Hx. apply filter_In in Hx. apply He; tauto.
Qed.

Lemma collectParams_wf p params :
  wfPairs (form_entries p) ->
  collectParams p = Normal params ->
  wfPairs params.
Proof.
  intros He E. unfold collectParams in E.
  eapply collect_wf_from; [exact He| |constructor|exact E].
  rewrite Forall_forall. intros k Hk.
  apply (proj1 (ofArray_In _ _)) in Hk.
  unfold FormData.keys in Hk. apply in_map_iff in Hk as [x [<- Hx]].
  unfold wfPairs in He. rewrite Forall_forall in He. apply He; assumption.
Qed.

Lemma join_Forall (P : code_unit -> Prop) sep (parts : list jsstring) :
  Forall P sep -> Forall (Forall P) parts -> Forall P (join sep parts).
Proof.
  intros Hs Hp. induction Hp as [|q parts Hq Hparts IH]; [constructor|].
  destruct parts as [|q' parts]; [exact Hq|].
  change (join sep (q :: q' :: parts))
    with (q ++ sep ++ join sep (q' :: parts)).
  repeat (apply Forall_app; split); assumption.
Qed.

Lemma urlencode_alphabet (s : jsstring) :
  wfString s ->
  Forall (fun c => keptByte c || among c [0x2B; 0x25]%N = true)
    (urlencode s).
Proof.
  intros H. rewrite urlencode_form.
  apply encoded_alphabet, utf8Encode_bytes, H.
Qed.

Lemma component_not_separator (c : N) :
  keptByte c || among c [0x2B; 0x25]%N = true ->
  c <> 0x3D%N /\ c <> 0x26%N.
Proof. intros H. split; intros ->; vm_compute in H; discriminate. Qed.

Lemma urlencode_no_separator (s : jsstring) :
  wfString s -> ~ In 0x3D%N (urlencode s) /\ ~ In 0x26%N (urlencode s).
Proof.
  intros H. pose proof (urlencode_alphabet H) as Ha.
  rewrite Forall_forall in Ha.
  split; intros Hin; apply Ha, component_not_separator in Hin; tauto.
Qed.

(** X4: when the entries of the form are strings of 16-bit code units,
    the query string is made of ASCII letters, digits and
    [* - . _ + % = &] only: no space, no "#", no "?", nothing beyond
    ASCII. *)
Theorem query_string_alphabet p r :
  wfPairs (form_entries p) ->
  build p = Normal r ->
  Forall (fun c => queryCodeUnit c = true) (queryString r).
Proof.
  intros He Hb. unfold build in Hb.
  destruct (collectParams p) as [params|e] eqn:E; simpl in Hb;
    [|discriminate].
  returned Hb. simpl.
  pose proof (@collectParams_wf p _ He E) as Hw.
  rewrite toString_join.
  apply join_Forall; [repeat constructor|].
  rewrite Forall_map. unfold wfPairs in Hw.
  eapply Forall_impl; [|exact Hw]. intros [n v] [Hn Hv]. simpl in *.
  unfold tupleString. simpl.
  assert (Hq : forall s, wfString s ->
                         Forall (fun c => queryCodeUnit c = true)
                           (urlencode s)).
  { intros s Hs. eapply Forall_impl; [|apply urlencode_alphabet, Hs].
    intros c Hc. unfold queryCodeUnit.
    apply orb_true_iff in Hc as [Hc|Hc]; [rewrite Hc; reflexivity|].
    apply orb_true_iff. right. unfold among in *. simpl in *.
    repeat (apply orb_true_iff in Hc as [Hc|Hc]; [rewrite Hc|]);
      rewrite ?orb_true_r; try reflexivity; discriminate. }
  apply Forall_app. split; [apply Hq, Hn|].
  constructor; [reflexivity | apply Hq, Hv].
Qed.

Lemma query_string_alphabet_witness :
  Forall (fun c => queryCodeUnit c = true)
    (js "keywords=red+car%26truck").
Proof.
  apply (@query_string_alphabet
           (pageOf [(js "keywords", js "red car&truck")] [])
           {| queryString := js "keywords=red+car%26truck";
              finalUrl := js "/?keywords=red+car%26truck" |}).
  - repeat constructor.
  - reflexivity.
Defined.

Lemma split_piece sep (piece s : jsstring) :
  ~ In sep piece ->
  split sep (piece ++ sep :: s) = piece :: split sep s.
Proof.
  induction piece as [|c piece IH]; intros H; simpl.
  - rewrite N.eqb_refl. reflexivity.
  - destruct (N.eqb c sep) eqn:Ec.
    + apply N.eqb_eq in Ec. subst. exfalso. apply H. left; reflexivity.
    + rewrite IH; [reflexivity|]. intros Hin. apply H. right; assumption.
Qed.

Lemma split_whole sep (piece : jsstring) :
  ~ In sep piece -> split sep piece = [piece].
Proof.
  induction piece as [|c piece IH]; intros H; simpl; [reflexivity|].
  destruct (N.eqb c sep) eqn:Ec.
  - apply N.eqb_eq in Ec. subst. exfalso. apply H. left; reflexivity.
  - rewrite IH; [reflexivity|]. intros Hin. apply H. right; assumption.
Qed.

(** Splitting undoes joining when no part holds the separator. *)
Lemma split_of_join sep (parts : list jsstring) :
  parts <> [] ->
  Forall (fun piece => ~ In sep piece) parts ->
  split sep (join [sep] parts) = parts.
Proof.
  intros Hne H. revert Hne.
  induction H as [|q parts Hq Hparts IH]; intros Hne;
    [exfalso; apply Hne; reflexivity|].
  destruct parts as [|q' parts].
  - simpl. apply split_whole; assumption.
  - change (join [sep] (q :: q' :: parts))
      with (q ++ sep :: join [sep] (q' :: parts)).
    rewrite split_piece by assumption.
    rewrite IH by discriminate. reflexivity.
Qed.

Lemma breakAt_first sep (front back : list N) :
  ~ In sep front ->
  FormDecoding.breakAt sep (front ++ sep :: back) = Some (front, back).
Proof.
  induction front as [|c front IH]; intros H; simpl.
  - rewrite N.eqb_refl. reflexivity.
  - destruct (N.eqb c sep) eqn:Ec.
    + apply N.eqb_eq in Ec. subst. exfalso. apply H. left; reflexivity.
    + rewrite IH; [reflexivity|]. intros Hin. apply H. right; assumption.
Qed.

Lemma parseSequence_tuple (tuple : jsstring * jsstring) :
  wfString (fst tuple) -> wfString (snd tuple) ->
  FormDecoding.parseSequence (tupleString tuple)
  = [(utf8Encode (fst tuple), utf8Encode (snd tuple))].
Proof.
  intros Hn Hv. unfold FormDecoding.parseSequence.
  pose proof (tupleString_nonempty tuple) as Hne.
  destruct (tupleString tuple) as [|c rest] eqn:E; [congruence|].
  rewrite <- E. unfold tupleString.
  change (urlencode (fst tuple) ++ [61%N] ++ urlencode (snd tuple))
    with (urlencode (fst tuple) ++ 61%N :: urlencode (snd tuple)).
  rewrite breakAt_first by (apply urlencode_no_separator; assumption).
  rewrite !urlencode_form.
  rewrite !decode_encoded by (apply utf8Encode_bytes; assumption).
  reflexivity.
Qed.

Lemma parse_serialized (params : list (jsstring * jsstring)) :
  wfPairs params ->
  FormDecoding.parse (join [0x26%N] (map tupleString params))
  = map (fun tuple => (utf8Encode (fst tuple), utf8Encode (snd tuple)))
      params.
Proof.
  intros Hw. unfold FormDecoding.parse.
  destruct params as [|t params]; [reflexivity|].
  rewrite split_of_join.
  - unfold wfPairs in Hw.
    induction Hw as [|x l [Hn Hv] _ IH]; [reflexivity|].
    simpl. rewrite parseSequence_tuple by assumption.
    simpl. f_equal. exact IH.
  - discriminate.
  - rewrite Forall_map. unfold wfPairs in Hw.
    eapply Forall_impl; [|exact Hw]. intros [n v] [Hn Hv]. simpl in *.
    unfold tupleString. simpl. rewrite in_app_iff. simpl.
    pose proof (urlencode_no_separator Hn) as [_ H1].
    pose proof (urlencode_no_separator Hv) as [_ H2].
    intros [H|[H|H]]; [tauto | discriminate | tauto].
Qed.

(** X5: the query string reads back: parsed as
    application/x-www-form-urlencoded it gives, pair for pair and in
    order, the UTF-8 bytes of the names and values collected. *)
Theorem query_string_round_trip p params :
  wfPairs (form_entries p) ->
  collectParams p = Normal params ->
  exists r,
    build p = Normal r
    /\ FormDecoding.parse (queryString r)
       = map (fun tuple => (utf8Encode (fst tuple), utf8Encode (snd tuple)))
           params.
Proof.
  intros He E. eexists. split; [apply build_of_params; exact E|].
  simpl. rewrite toString_join.
  apply parse_serialized. exact (@collectParams_wf p _ He E).
Qed.

Lemma query_string_round_trip_witness :
  exists r,
    build (pageOf [(js "keywords", js "a=b & c, d")] []) = Normal r
    /\ FormDecoding.parse (queryString r)
       = [(js "keywords", js "a=b & c"); (js "keywords", js "d")].
Proof.
  apply (@query_string_round_trip
           (pageOf [(js "keywords", js "a=b & c, d")] [])
           [(js "keywords", js "a=b & c"); (js "keywords", js "d")]).
  - repeat constructor.
  - reflexivity.
Defined.

End QueryStringFacts.

(** * The base URL, the lock and the option lists *)

Section BaseUrlFacts.

Lemma endsWith_slash_app (s : jsstring) :
  endsWith (s ++ js "/") (js "/") = true.
Proof. apply endsWith_spec. exists s. reflexivity. Qed.

(** X6: the base URL written without a query string ends with "/", and
    taking that result as the base URL gives the same final URL as the
    base URL itself: the slash is added once.  The final URL always
    starts with the base URL as typed. *)
Theorem base_normalization (baseUrl paramString : jsstring) :
  endsWith (makeFinalUrl baseUrl []) (js "/") = true
  /\ makeFinalUrl (makeFinalUrl baseUrl []) paramString
     = makeFinalUrl baseUrl paramString
  /\ exists tail, makeFinalUrl baseUrl paramString = baseUrl ++ tail.
Proof.
  unfold makeFinalUrl. simpl truthy. cbv iota.
  rewrite !app_nil_r.
  destruct (endsWith baseUrl (js "/")) eqn:E; simpl negb; cbv iota.
  - rewrite E. simpl. split; [reflexivity|]. split; [reflexivity|].
    eexists; reflexivity.
  - rewrite endsWith_slash_app. simpl negb. cbv iota.
    split; [reflexivity|]. split; [reflexivity|].
    eexists. rewrite <- app_assoc. reflexivity.
Qed.

End BaseUrlFacts.

Section LockFacts.

Lemma toggleLock_iter_readOnly (n : nat) (p : Page) :
  baseUrlInput_readOnly (Nat.iter n toggleLock p)
  = if Nat.even n then baseUrlInput_readOnly p
    else negb (baseUrlInput_readOnly p).
Proof.
  induction n as [|n IH]; [reflexivity|].
  rewrite Nat.even_succ, <- Nat.negb_even.
  simpl Nat.iter. unfold toggleLock at 1. simpl. rewrite IH.
  destruct (Nat.even n); simpl; [reflexivity | apply negb_involutive].
Qed.

(** X7: [toggleLock] flips the read-only flag, sets the label from the
    new flag (U+1F513 when read-only, U+1F512 when not) and leaves the
    form, the base URL and the generated URL alone.  After n toggles the
    flag is flipped exactly when n is odd, and from the first toggle on
    the label matches the flag; two toggles give the page back whenever
    its label matched its flag; toggling commutes with [updateUrl]. *)
Theorem toggleLock_updateUrl (p : Page) :
  baseUrlInput_readOnly (toggleLock p) = negb (baseUrlInput_readOnly p)
  /\ toggleLockBtn_textContent (toggleLock p)
     = (if baseUrlInput_readOnly p
        then [0xD83D; 0xDD12]%N else [0xD83D; 0xDD13]%N)
  /\ (form_entries (toggleLock p) = form_entries p
      /\ baseUrlInput_value (toggleLock p) = baseUrlInput_value p
      /\ generatedUrlTextarea_value (toggleLock p)
         = generatedUrlTextarea_value p
      /\ goToFbButton_href (toggleLock p) = goToFbButton_href p)
  /\ (forall n,
        baseUrlInput_readOnly (Nat.iter n toggleLock p)
        = (if Nat.even n then baseUrlInput_readOnly p
           else negb (baseUrlInput_readOnly p))
        /\ toggleLockBtn_textContent (Nat.iter (S n) toggleLock p)
           = (if baseUrlInput_readOnly (Nat.iter (S n) toggleLock p)
              then [0xD83D; 0xDD13]%N else [0xD83D; 0xDD12]%N))
  /\ (toggleLockBtn_textContent p
      = (if baseUrlInput_readOnly p
         then [0xD83D; 0xDD13]%N else [0xD83D; 0xDD12]%N) ->
      toggleLock (toggleLock p) = p)
  /\ updateUrl (toggleLock p)
     = (p' <- updateUrl p ;; Normal (toggleLock p')).
Proof.
  split; [reflexivity|].
  split; [unfold toggleLock; simpl;
          destruct (baseUrlInput_readOnly p); reflexivity|].
  split; [repeat split|].
  split; [intros n; split; [apply toggleLock_iter_readOnly | reflexivity]|].
  split.
  - intros H. destruct p as [fe fel bv ro lbl gen href]. simpl in *.
    unfold toggleLock. simpl. rewrite negb_involutive, <- H. reflexivity.
  - unfold updateUrl.
    rewrite (@build_depends_on (toggleLock p) p) by reflexivity.
    destruct (build p); reflexivity.
Qed.

Lemma toggleLock_updateUrl_witness :
  baseUrlInput_readOnly (toggleLock sampleSearch) = false
  /\ toggleLockBtn_textContent (toggleLock sampleSearch)
     = [0xD83D; 0xDD12]%N
  /\ toggleLock (toggleLock sampleSearch) = sampleSearch.
Proof.
  destruct (toggleLock_updateUrl sampleSearch)
    as [H1 [H2 [_ [_ [H5 _]]]]].
  split; [exact H1|]. split; [exact H2|]. apply H5. reflexivity.
Defined.

End LockFacts.

Section OptionListFacts.

Lemma insertByIndex_perm {V} (e : N * (jsstring * V)) l :
  Permutation (JsObject.insertByIndex e l) (e :: l).
Proof.
  induction l as [|e' l IH]; simpl; [reflexivity|].
  destruct (fst e <=? fst e')%N; [reflexivity|].
  rewrite IH. apply perm_swap.
Qed.

Lemma sortByIndex_perm {V} (l : list (N * (jsstring * V))) :
  Permutation (JsObject.sortByIndex l) l.
Proof.
  induction l as [|e l IH]; simpl; [reflexivity|].
  rewrite insertByIndex_perm. constructor. exact IH.
Qed.

Lemma insertByIndex_sorted {V} (e : N * (jsstring * V)) l :
  Sorted (fun a b => (fst a <= fst b)%N) l ->
  Sorted (fun a b => (fst a <= fst b)%N) (JsObject.insertByIndex e l).
Proof.
  induction 1 as [|e' l Hs IH Hd]; simpl; [repeat constructor|].
  destruct (N.leb_spec (fst e) (fst e')) as [Hle|Hgt].
  - constructor; [constructor; assumption|]. constructor. exact Hle.
  - constructor; [exact IH|].
    destruct l as [|e'' l]; simpl.
    + constructor. lia.
    + destruct (fst e <=? fst e'')%N; constructor; try lia.
      inversion Hd; assumption.
Qed.

(** The array-index keys come out in ascending order. *)
Lemma sortByIndex_sorted {V} (l : list (N * (jsstring * V))) :
  Sorted (fun a b => (fst a <= fst b)%N) (JsObject.sortByIndex l).
Proof.
  induction l as [|e l IH]; simpl; [constructor|].
  apply insertByIndex_sorted, IH.
Qed.

(** [Object.entries] lists every property once. *)
Lemma entries_perm {V} (o : JsObject.t V) :
  Permutation (JsObject.entries o) o.
Proof.
  unfold JsObject.entries. rewrite sortByIndex_perm.
  unfold JsObject.indexed, JsObject.named.
  induction o as [|kv o IH]; simpl; [reflexivity|].
  destruct (JsObject.arrayIndex (fst kv)); simpl.
  - constructor. exact IH.
  - rewrite <- Permutation_middle. constructor. exact IH.
Qed.

Lemma define_keys {V} (o : JsObject.t V) key v k :
  In k (map fst (JsObject.define o key v)) <-> In k (map fst o) \/ k = key.
Proof.
  induction o as [|[k' w] o IH]; simpl.
  - split; [intros [H|[]]; auto | intros [[]|H]; auto].
  - destruct (str_eqb k' key) eqn:E; simpl.
    + apply str_eqb_eq in E. subst. split; [tauto|].
      intros [H|H]; auto.
    + rewrite IH. tauto.
Qed.

Lemma define_NoDup {V} (o : JsObject.t V) key v :
  NoDup (map fst o) -> NoDup (map fst (JsObject.define o key v)).
Proof.
  induction o as [|[k' w] o IH]; simpl; intros H.
  - repeat constructor. intros [].
  - apply NoDup_cons_iff in H as [Hk Ho].
    destruct (str_eqb k' key) eqn:E; simpl.
    + constructor; assumption.
    + constructor; [|apply IH, Ho].
      rewrite define_keys. intros [H|H]; [contradiction|].
      subst. rewrite str_eqb_refl in E. discriminate.
Qed.

(** An object literal has each key once. *)
Lemma literal_NoDup {V} (props : list (jsstring * V)) :
  NoDup (map fst (JsObject.literal props)).
Proof.
  unfold JsObject.literal.
  assert (H : forall o : JsObject.t V,
             NoDup (map fst o) ->
             NoDup (map fst (fold_left
                               (fun o kv =>
                                  JsObject.define o (fst kv) (snd kv))
                               props o))).
  { induction props as [|kv props IH]; intros o Ho; simpl; [exact Ho|].
    apply IH, define_NoDup, Ho. }
  apply H. constructor.
Qed.

Lemma appendChild_self (doc : Document) id child :
  appendChild doc id child id
  = match doc id with
    | Some children => Some (children ++ [child])
    | None => None
    end.
Proof. unfold appendChild. rewrite str_eqb_refl. reflexivity. Qed.

Lemma appendChild_other (doc : Document) id child other :
  other <> id -> appendChild doc id child other = doc other.
Proof.
  intros H. unfold appendChild.
  apply str_eqb_neq in H. rewrite H. reflexivity.
Qed.

Lemma appendAll_self (doc : Document) id (es : list (jsstring * jsstring)) :
  fold_left
    (fun doc entry =>
       appendChild doc id
         {| option_value := fst entry; option_textContent := snd entry |})
    es doc id
  = match doc id with
    | Some children =>
        Some (children
                ++ map (fun entry => mkOption (fst entry) (snd entry)) es)
    | None => None
    end.
Proof.
  revert doc. induction es as [|e es IH]; intros doc; simpl.
  - destruct (doc id); [rewrite app_nil_r|]; reflexivity.
  - rewrite IH, appendChild_self.
    destruct (doc id); [rewrite <- app_assoc|]; reflexivity.
Qed.

Lemma appendAll_other (doc : Document) id other
  (es : list (jsstring * jsstring)) :
  other <> id ->
  fold_left
    (fun doc entry =>
       appendChild doc id
         {| option_value := fst entry; option_textContent := snd entry |})
    es doc other
  = doc other.
Proof.
  intros H. revert doc. induction es as [|e es IH]; intros doc; simpl;
    [reflexivity|].
  rewrite IH. apply appendChild_other. exact H.
Qed.

Lemma populate_from (l : list (jsstring * JsObject.t jsstring))
  (doc : Document) id :
  NoDup (map fst l) ->
  fold_left
    (fun doc entry =>
       match doc (fst entry) with
       | Some _ => appendOptions (fst entry) (snd entry) doc
       | None => doc
       end) l doc id
  = match doc id with
    | None => None
    | Some children =>
        Some (children
                ++ flat_map (fun entry =>
                               if str_eqb (fst entry) id
                               then optionsOf (snd entry) else []) l)
    end.
Proof.
  revert doc. induction l as [|[k opts] l IH]; intros doc Hnd; simpl.
  - destruct (doc id); [rewrite app_nil_r|]; reflexivity.
  - apply NoDup_cons_iff in Hnd as [Hk Hnd]. rewrite IH by exact Hnd.
    destruct (str_eqb k id) eqn:E.
    + apply str_eqb_eq in E. subst k.
      destruct (doc id) as [children|] eqn:Ed.
      * unfold appendOptions. rewrite appendAll_self, Ed.
        unfold optionsOf. rewrite <- app_assoc. reflexivity.
      * rewrite Ed. reflexivity.
    + assert (Hneq : id <> k).
      { intros ->. rewrite str_eqb_refl in E. discriminate. }
      destruct (doc k).
      * unfold appendOptions. rewrite appendAll_other by exact Hneq.
        reflexivity.
      * reflexivity.
Qed.

Lemma options_of_key (l : list (jsstring * JsObject.t jsstring)) id options :
  NoDup (map fst l) -> In (id, options) l ->
  flat_map (fun entry =>
              if str_eqb (fst entry) id then optionsOf (snd entry) else []) l
  = optionsOf options.
Proof.
  induction l as [|[k o] l IH]; simpl; intros Hnd Hin; [contradiction|].
  apply NoDup_cons_iff in Hnd as [Hk Hnd].
  destruct Hin as [Hin|Hin].
  - inversion Hin; subst. rewrite str_eqb_refl.
    replace (flat_map _ l) with (@nil OptionElement);
      [apply app_nil_r|].
    symmetry. clear IH Hnd. induction l as [|[k' o'] l IH]; [reflexivity|].
    simpl in *. destruct (str_eqb k' id) eqn:E.
    + apply str_eqb_eq in E. tauto.
    + apply IH. tauto.
  - destruct (str_eqb k id) eqn:E.
    + apply str_eqb_eq in E. subst. exfalso. apply Hk.
      apply in_map_iff. exists (id, options). auto.
    + apply IH; assumption.
Qed.

Lemma options_of_no_key (l : list (jsstring * JsObject.t jsstring)) id :
  ~ In id (map fst l) ->
  flat_map (fun entry =>
              if str_eqb (fst entry) id then optionsOf (snd entry) else []) l
  = [].
Proof.
  induction l as [|[k o] l IH]; simpl; intros H; [reflexivity|].
  destruct (str_eqb k id) eqn:E.
  - apply str_eqb_eq in E. tauto.
  - apply IH. tauto.
Qed.

Lemma populate_tables
  (tables : JsObject.t (JsObject.t jsstring)) (doc : Document) :
  NoDup (map fst tables) ->
  (forall id, doc id = None -> populateSelectOptionsFrom tables doc id = None)
  /\ (forall id children,
        doc id = Some children -> ~ In id (map fst tables) ->
        populateSelectOptionsFrom tables doc id = Some children)
  /\ (forall id options children,
        In (id, options) tables -> doc id = Some children ->
        populateSelectOptionsFrom tables doc id
        = Some (children ++ optionsOf options)).
Proof.
  intros Hnd.
  assert (Hp : Permutation (JsObject.entries tables) tables)
    by apply entries_perm.
  assert (Hnd' : NoDup (map fst (JsObject.entries tables))).
  { eapply Permutation_NoDup; [|exact Hnd].
    apply Permutation_map, Permutation_sym, Hp. }
  unfold populateSelectOptionsFrom.
  split; [|split].
  - intros id Hd. rewrite populate_from by exact Hnd'. rewrite Hd.
    reflexivity.
  - intros id children Hd Hk. rewrite populate_from by exact Hnd'.
    rewrite Hd, options_of_no_key, app_nil_r; [reflexivity|].
    intros Hin. apply Hk.
    eapply Permutation_in; [apply Permutation_map, Hp | exact Hin].
  - intros id options children Hin Hd.
    rewrite populate_from by exact Hnd'. rewrite Hd.
    rewrite (@options_of_key _ id options); [reflexivity|exact Hnd'|].
    eapply Permutation_in; [apply Permutation_sym, Hp | exact Hin].
Qed.

(** X8: [populateSelectOptions], for any table of option tables: an
    element the document does not have stays missing; an element that is
    no key of the table keeps its children; an element that is a key gets,
    after the children it had, one option per property of its table, in
    the order of [Object.entries]. *)
Theorem populate_select_options
  (tables : JsObject.t (JsObject.t jsstring)) (doc : Document) :
  NoDup (map fst tables) ->
  (forall id, doc id = None -> populateSelectOptionsFrom tables doc id = None)
  /\ (forall id children,
        doc id = Some children -> ~ In id (map fst tables) ->
        populateSelectOptionsFrom tables doc id = Some children)
  /\ (forall id options children,
        In (id, options) tables -> doc id = Some children ->
        populateSelectOptionsFrom tables doc id
        = Some (children ++ optionsOf options)).
Proof. apply populate_tables. Qed.

Lemma populate_select_options_witness :
  populateSelectOptions
    (fun id => if str_eqb id (js "deliveryMethod")
               then Some [mkOption (js "x") (js "X")] else None)
    (js "deliveryMethod")
  = Some [mkOption (js "x") (js "X");
          mkOption [] (js "Any");
          mkOption (js "local_pick_up") (js "Local Pick-up");
          mkOption (js "shipping") (js "Shipping")].
Proof.
  apply (proj2 (proj2 (@populate_select_options selectOptions
                         (fun id => if str_eqb id (js "deliveryMethod")
                                    then Some [mkOption (js "x") (js "X")]
                                    else None)
                         (literal_NoDup _)))
           (js "deliveryMethod")
           (JsObject.literal
              [([], js "Any");
               (js "local_pick_up", js "Local Pick-up");
               (js "shipping", js "Shipping")])
           [mkOption (js "x") (js "X")]).
  - right; right; left; reflexivity.
  - reflexivity.
Defined.

(** X9: with the tables of the script, in any document: the list for
    [daysSinceListed] gets 1, 7, 30 and the empty value ("Any Time") last,
    the numeric keys going first in ascending order; the three other lists
    get their options in the order written, the empty value first. *)
Theorem populate_script_tables (doc : Document) (id : jsstring)
  (children : list OptionElement) :
  doc id = Some children ->
  (id = js "daysSinceListed" ->
   populateSelectOptions doc id
   = Some (children ++ [mkOption (js "1") (js "Last 24 Hours");
                        mkOption (js "7") (js "Last 7 Days");
                        mkOption (js "30") (js "Last 30 Days");
                        mkOption [] (js "Any Time")]))
  /\ (id = js "sortBy" ->
      populateSelectOptions doc id
      = Some (children
                ++ [mkOption [] (js "Default (Best Match)");
                    mkOption (js "best_match") (js "Best Match");
                    mkOption (js "distance_ascend")
                      (js "Distance: Nearest First");
                    mkOption (js "creation_time_descend")
                      (js "Date: Newest First");
                    mkOption (js "price_ascend") (js "Price: Lowest First");
                    mkOption (js "price_descend")
                      (js "Price: Highest First")]))
  /\ (id = js "deliveryMethod" ->
      populateSelectOptions doc id
      = Some (children ++ [mkOption [] (js "Any");
                           mkOption (js "local_pick_up") (js "Local Pick-up");
                           mkOption (js "shipping") (js "Shipping")]))
  /\ (id = js "transmissionType" ->
      populateSelectOptions doc id
      = Some (children ++ [mkOption [] (js "Any");
                           mkOption (js "automatic") (js "Automatic");
                           mkOption (js "manual") (js "Manual")]))
  /\ (~ In id [js "sortBy"; js "daysSinceListed"; js "deliveryMethod";
               js "transmissionType"] ->
      populateSelectOptions doc id = Some children).
Proof.
  intros Hd.
  destruct (@populate_tables selectOptions doc (literal_NoDup _))
    as [_ [Hother Hkey]].
  unfold populateSelectOptions.
  split; [|split; [|split; [|split]]].
  - intros ->.
    rewrite (Hkey _ (JsObject.literal
                       [([], js "Any Time");
                        (js "1", js "Last 24 Hours");
                        (js "7", js "Last 7 Days");
                        (js "30", js "Last 30 Days")]) children);
      [reflexivity | right; left; reflexivity | exact Hd].
  - intros ->.
    rewrite (Hkey _ (JsObject.literal
                       [([], js "Default (Best Match)");
                        (js "best_match", js "Best Match");
                        (js "distance_ascend", js "Distance: Nearest First");
                        (js "creation_time_descend", js "Date: Newest First");
                        (js "price_ascend", js "Price: Lowest First");
                        (js "price_descend", js "Price: Highest First")])
               children);
      [reflexivity | left; reflexivity | exact Hd].
  - intros ->.
    rewrite (Hkey _ (JsObject.literal
                       [([], js "Any");
                        (js "local_pick_up", js "Local Pick-up");
                        (js "shipping", js "Shipping")]) children);
      [reflexivity | right; right; left; reflexivity | exact Hd].
  - intros ->.
    rewrite (Hkey _ (JsObject.literal
                       [([], js "Any");
                        (js "automatic", js "Automatic");
                        (js "manual", js "Manual")]) children);
      [reflexivity | right; right; right; left; reflexivity | exact Hd].
  - intros Hn. apply Hother; [exact Hd|]. exact Hn.
Qed.

Lemma populate_script_tables_witness :
  populateSelectOptions
    (fun id => if str_eqb id (js "daysSinceListed") then Some [] else None)
    (js "daysSinceListed")
  = Some [mkOption (js "1") (js "Last 24 Hours");
          mkOption (js "7") (js "Last 7 Days");
          mkOption (js "30") (js "Last 30 Days");
          mkOption [] (js "Any Time")].
Proof.
  apply (proj1 (@populate_script_tables
                  (fun id => if str_eqb id (js "daysSinceListed")
                             then Some [] else None)
                  (js "daysSinceListed") [] eq_refl) eq_refl).
Defined.

End OptionListFacts.

(** * The copy button *)

Section CopyFacts.

Lemma classList_remove_add (l : list jsstring) token :
  ClassList.remove (ClassList.add l token) token = ClassList.remove l token.
Proof.
  unfold ClassList.add, ClassList.remove.
  destruct (ClassList.contains l token); [reflexivity|].
  rewrite filter_app. simpl. rewrite str_eqb_refl. simpl.
  apply app_nil_r.
Qed.

Lemma classList_remove_absent (l : list jsstring) token :
  ClassList.contains l token = false -> ClassList.remove l token = l.
Proof.
  unfold ClassList.contains, ClassList.remove.
  induction l as [|t l IH]; simpl; [reflexivity|].
  intros H. apply orb_false_iff in H as [Ht Hl].
  assert (E : str_eqb t token = false).
  { apply str_eqb_neq. intros ->. rewrite str_eqb_refl in Ht.
    discriminate. }
  rewrite E. simpl. rewrite IH by exact Hl. reflexivity.
Qed.

Lemma classList_contains_remove (l : list jsstring) token :
  ClassList.contains (ClassList.remove l token) token = false.
Proof.
  unfold ClassList.contains, ClassList.remove.
  induction l as [|t l IH]; simpl; [reflexivity|].
  destruct (str_eqb t token) eqn:E; simpl; [exact IH|].
  rewrite IH, orb_false_r. apply str_eqb_neq. intros ->.
  rewrite str_eqb_refl in E. discriminate.
Qed.

(** X10: a copy that succeeds, followed by its timer: the button reads
    "Copy URL" whatever it read before, the class "copied" is gone and the
    other classes are as they were, the clipboard holds the text; a button
    that read "Copy URL" and was not "copied" is back as it was. *)
Theorem copy_then_revert (text : jsstring) (u : CopyUi) :
  copyUrlButton_textContent (revertCopyButton (copyUrl_resume true text u))
  = js "Copy URL"
  /\ copyUrlButton_classList (revertCopyButton (copyUrl_resume true text u))
     = ClassList.remove (copyUrlButton_classList u) (js "copied")
  /\ ClassList.contains
       (copyUrlButton_classList
          (revertCopyButton (copyUrl_resume true text u)))
       (js "copied") = false
  /\ (copyUrlButton_textContent u = js "Copy URL" ->
      ClassList.contains (copyUrlButton_classList u) (js "copied") = false ->
      revertCopyButton (copyUrl_resume true text u)
      = {| copyUrlButton_textContent := copyUrlButton_textContent u;
           copyUrlButton_classList := copyUrlButton_classList u;
           clipboard_text := Some text;
           timers := timers u ++ [2000%N];
           console_errors := console_errors u;
           alerts := alerts u |}).
Proof.
  unfold revertCopyButton, copyUrl_resume, copyUrl_fulfilled. simpl.
  rewrite classList_remove_add.
  split; [reflexivity|]. split; [reflexivity|].
  split; [apply classList_contains_remove|].
  intros Ht Hc. rewrite classList_remove_absent by exact Hc.
  rewrite Ht. reflexivity.
Qed.

Lemma copy_then_revert_witness :
  revertCopyButton
    (copyUrl_resume true (js "https://x.com/")
       (mkCopyUi (js "Copy URL") [js "btn"] None [] 0 []))
  = mkCopyUi (js "Copy URL") [js "btn"] (Some (js "https://x.com/"))
      [2000%N] 0 [].
Proof.
  apply (proj2 (proj2 (proj2
           (copy_then_revert (js "https://x.com/")
              (mkCopyUi (js "Copy URL") [js "btn"] None [] 0 []))))
           eq_refl eq_refl).
Defined.

End CopyFacts.

(** * Where the parameters come from *)

Section ProvenanceFacts.

Lemma getAll_In (fd : FormData.t) key raw :
  In raw (FormData.getAll fd key) <-> In (key, raw) fd.
Proof.
  unfold FormData.getAll. rewrite in_map_iff. split.
  - intros [[k v] [E H]]. apply filter_In in H as [H Hk]. simpl in *.
    apply str_eqb_eq in Hk. subst. exact H.
  - intros H. exists (key, raw). split; [reflexivity|].
    apply filter_In. split; [exact H | apply str_eqb_refl].
Qed.

Lemma In_pairs key (values : list jsstring) n v :
  In (n, v) (pairs key values) -> n = key /\ In v values.
Proof.
  unfold pairs. rewrite in_map_iff. intros [x [E H]].
  inversion E; subst. auto.
Qed.

Lemma fieldPairs_provenance p key n v :
  In (n, v) (fieldPairs p key) ->
  n = key
  /\ exists raw,
       In raw (FormData.getAll (form_entries p) key) /\ raw <> []
       /\ (v = js "true" \/ v = raw
           \/ exists piece, In piece (split 44%N raw) /\ v = trim piece).
Proof.
  unfold fieldPairs, encodeField.
  destruct (FormData.getAll (form_entries p) key)
    as [|value [|value' rest]] eqn:Eg.
  - intros [].
  - destruct (truthy value) eqn:Hv; simpl; [|intros []].
    apply truthy_nonempty in Hv.
    assert (Hplain : In (n, v) [(key, value)] ->
                     n = key /\ exists raw,
                       In raw [value] /\ raw <> []
                       /\ (v = js "true" \/ v = raw
                           \/ exists piece,
                                In piece (split 44%N raw) /\ v = trim piece)).
    { intros [E|[]]. inversion E; subst. split; [reflexivity|].
      exists v. simpl. auto. }
    destruct (form_elements p key) as [item|]; [|exact Hplain].
    destruct (strictEq (item_type item) (js "checkbox")).
    + intros [E|[]]. inversion E; subst. split; [reflexivity|].
      exists value. simpl. auto.
    + destruct (item_dataset item) as [array|]; [|intros []].
      destruct (strictEq array (js "comma")); [|exact Hplain].
      rewrite forEach_append, app_nil_l. intros H.
      apply In_pairs in H as [-> H]. split; [reflexivity|].
      apply filter_In in H as [H _].
      apply in_map_iff in H as [piece [E Hpiece]].
      exists value. split; [left; reflexivity|]. split; [exact Hv|].
      right; right. exists piece. auto.
  - rewrite forEach_append_truthy, app_nil_l. intros H.
    apply In_pairs in H as [-> H]. split; [reflexivity|].
    apply filter_In in H as [H Ht]. exists v.
    split; [exact H|]. split; [apply truthy_nonempty; exact Ht|]. auto.
Qed.

(** X14: every parameter comes from an entry of the form with the same
    name and a non-empty value; its value is that entry's value, or
    "true", or a trimmed piece of that entry's value between commas. *)
Theorem collected_provenance p params name value :
  collectParams p = Normal params ->
  In (name, value) params ->
  exists raw,
    In (name, raw) (form_entries p) /\ raw <> []
    /\ (value = js "true" \/ value = raw
        \/ exists piece, In piece (split 44%N raw) /\ value = trim piece).
Proof.
  intros E Hin.
  assert (Ep : params
               = flat_map (fieldPairs p)
                   (JsSet.ofArray (FormData.keys (form_entries p)))).
  { unfold collectParams in E.
    apply collect_from in E; auto using ofArray_NoDup. }
  rewrite Ep in Hin. apply in_flat_map in Hin as [key [_ Hin]].
  apply fieldPairs_provenance in Hin as [-> [raw [Hraw H]]].
  exists raw. split; [apply getAll_In; exact Hraw | exact H].
Qed.

Lemma collected_provenance_witness :
  exists raw,
    In (js "keywords", raw) (form_entries sampleSearch) /\ raw <> []
    /\ (js "truck" = js "true" \/ js "truck" = raw
        \/ exists piece, In piece (split 44%N raw) /\ js "truck" = trim piece).
Proof.
  apply (@collected_provenance sampleSearch
           [(js "sortBy", js "price_ascend");
            (js "itemCondition", js "new");
            (js "itemCondition", js "used");
            (js "keywords", js "car");
            (js "keywords", js "truck");
            (js "availability", js "true")]
           (js "keywords") (js "truck") eq_refl).
  do 4 right. left. reflexivity.
Defined.

(** Witness of [encodeField_single_plain]: a lone select. *)
Lemma encodeField_single_plain_witness :
  encodeField (js "sortBy") (Some (Control selectOne)) [js "price_ascend"] []
  = Normal [(js "sortBy", js "price_ascend")].
Proof.
  apply (@encodeField_single_plain (js "sortBy") (Some (Control selectOne))
           (js "price_ascend") []).
  - discriminate.
  - intros [].
  - split; discriminate.
Defined.

(** X13: in what [updateUrl] collects, every value of a key whose lone
    control is not a check box and carries [data-array="comma"], and which
    has a single entry, is non-empty, holds no comma and neither starts
    nor ends with white space. *)
Theorem comma_pieces_clean p params key (e : HTMLElement) value v :
  collectParams p = Normal params ->
  form_elements p key = Some (Control e) ->
  dataset_array e = Some (js "comma") ->
  type e <> js "checkbox" ->
  FormData.getAll (form_entries p) key = [value] ->
  In (key, v) params ->
  v <> [] /\ ~ In 44%N v
  /\ (forall c r, v = c :: r -> isWhiteSpace c = false)
  /\ (forall r c, v = r ++ [c] -> isWhiteSpace c = false)
  /\ exists piece, In piece (split 44%N value) /\ v = trim piece.
Proof.
  intros E He Hd Ht Hg Hin.
  assert (Ep : params
               = flat_map (fieldPairs p)
                   (JsSet.ofArray (FormData.keys (form_entries p)))).
  { unfold collectParams in E.
    apply collect_from in E; auto using ofArray_NoDup. }
  rewrite Ep in Hin. apply in_flat_map in Hin as [k [_ Hin]].
  assert (k = key).
  { symmetry. apply (@fieldPairs_names p k key).
    unfold names. apply in_map_iff. exists (key, v). auto. }
  subst k. unfold fieldPairs, encodeField in Hin.
  rewrite Hg, He in Hin. simpl in Hin.
  apply str_eqb_neq in Ht. rewrite Ht, Hd in Hin. simpl in Hin.
  destruct (truthy value); simpl in Hin; [|contradiction].
  rewrite forEach_append, app_nil_l in Hin.
  apply In_pairs in Hin as [_ Hin].
  destruct (trimmed_pieces_clean _ _ Hin) as [H1 [H2 [H3 H4]]].
  repeat (split; [assumption|]).
  apply filter_In in Hin as [Hin _].
  apply in_map_iff in Hin as [piece [Epiece Hpiece]].
  exists piece. auto.
Qed.

Lemma comma_pieces_clean_witness :
  js "truck" <> [] /\ ~ In 44%N (js "truck")
  /\ (forall c r, js "truck" = c :: r -> isWhiteSpace c = false)
  /\ (forall r c, js "truck" = r ++ [c] -> isWhiteSpace c = false)
  /\ exists piece,
       In piece (split 44%N (js "car, truck , "))
       /\ js "truck" = trim piece.
Proof.
  apply (@comma_pieces_clean sampleSearch
           [(js "sortBy", js "price_ascend");
            (js "itemCondition", js "new");
            (js "itemCondition", js "used");
            (js "keywords", js "car");
            (js "keywords", js "truck");
            (js "availability", js "true")]
           (js "keywords") textComma (js "car, truck , ") (js "truck")
           eq_refl eq_refl eq_refl).
  - discriminate.
  - reflexivity.
  - do 4 right. left. reflexivity.
Defined.

End ProvenanceFacts.
